(** * vso-agent: diagnostic contexts, the paging logger and job completion

    A shallow embedding of [logging.ts] (class [PagingLogger]) and of
    [agent/context.ts] (classes [Context] and [JobContext]), together
    with the properties of the natural-language specification that can
    be settled on them.

    Conventions of the embedding.
    - A method that mutates its object and its environment is a state
      transformer; a method that may raise is a computation in the
      monad [M], whose state survives a raised exception exactly as a
      JavaScript object keeps the assignments made before a [throw].
    - Calls on collaborators whose code is not part of the sources
      (diagnostic writers seen through their interface, the feedback
      channel, the console, the event listeners) are recorded in a
      chronological trace.
    - Platform facilities ([os.EOL], [Date.prototype.toISOString], the
      text produced by [JSON.stringify]) are parameters. *)

From stdpp Require Import base option list strings pretty gmap.
From Stdlib Require Import ZArith Ascii.

Set Default Proof Using "Type".

(** ** Exceptions and stateful computations *)

Inductive Exception : Type :=
  | EBADF (fd : positive)      (* operation on a descriptor that is not open *)
  | TypeError (msg : string).  (* an argument of the wrong kind *)

Inductive outcome (A : Type) : Type :=
  | Ok (a : A)
  | Throw (e : Exception).
Arguments Ok {A} a.
Arguments Throw {A} e.

Definition M (S A : Type) : Type := S → outcome A * S.

Definition ret {S A} (a : A) : M S A := λ s, (Ok a, s).

Definition bind {S A B} (m : M S A) (k : A → M S B) : M S B :=
  λ s, match m s with
       | (Ok a, s') => k a s'
       | (Throw e, s') => (Throw e, s')
       end.

Definition throw {S A} (e : Exception) : M S A := λ s, (Throw e, s).

Definition modify {S} (f : S → S) : M S unit := λ s, (Ok tt, f s).

Notation "'do' x <- m ; k" := (bind m (λ x, k))
  (at level 10, x name, m at level 100, k at level 200).
Notation "m ;; k" := (bind m (λ _, k))
  (at level 100, k at level 200, right associativity).

(** Running a list of computations in order, stopping at the first one
    that raises. *)
Fixpoint sequence_ {S} (ms : list (M S unit)) : M S unit :=
  match ms with
  | [] => ret tt
  | m :: ms' => m ;; sequence_ ms'
  end.

(** ** The part of node's [fs] module used by the logger

    A file is the list of the chunks appended to it, oldest first (its
    text is their concatenation).  Descriptors are positive numbers;
    the table maps each open descriptor to the path it was opened on.
    Directories are not modelled, and a healthy disk is assumed: the
    only failure is the use of a descriptor that is not open. *)
Module Fs.

Record t : Type := mk {
  files : gmap string (list string);
  open_fds : gmap positive string
}.

Definition empty : t := mk ∅ ∅.

(** [fs.openSync(path, 'a')]: append, create if not exist. *)
Definition openSync (path : string) (fs : t) : positive * t :=
  let fd := fresh (dom (open_fds fs)) in
  (fd, mk (<[path := default [] (files fs !! path)]> (files fs))
          (<[fd := path]> (open_fds fs))).

(** [fs.writeSync(fd, line)] *)
Definition writeSync (fd : positive) (line : string) (fs : t) : outcome unit * t :=
  match open_fds fs !! fd with
  | Some path =>
      (Ok tt, mk (<[path := default [] (files fs !! path) ++ [line]]> (files fs))
                 (open_fds fs))
  | None => (Throw (EBADF fd), fs)
  end.

(** [fs.closeSync(fd)] *)
Definition closeSync (fd : positive) (fs : t) : outcome unit * t :=
  match open_fds fs !! fd with
  | Some _ => (Ok tt, mk (files fs) (delete fd (open_fds fs)))
  | None => (Throw (EBADF fd), fs)
  end.

(** [fs.writeFileSync(path, data)]: replaces the file. *)
Definition writeFileSync (path data : string) (fs : t) : t :=
  mk (<[path := [data]]> (files fs)) (open_fds fs).

(** [path.join] of two segments that need no normalisation. *)
Definition join (dir name : string) : string := dir +:+ "/" +:+ name.

End Fs.

(** ** logging.ts *)

(** [cm.ILogMetadata].  The job information is opaque to the logger;
    [pagesId] and [logPath] are filled in by [create]. *)
Record ILogMetadata : Type := mkMetadata {
  jobInfo : string;
  recordId : string;
  meta_pagesId : option string;
  meta_logPath : option string
}.

(** [cm.ILogPageInfo], the payload of a ['pageComplete'] event. *)
Record ILogPageInfo : Type := mkPageInfo {
  logInfo : ILogMetadata;
  pagePath : option string;
  pageNumber : nat
}.

(** [var PAGE_SIZE = 25;] *)
Definition PAGE_SIZE : nat := 25.

Module PagingLogger.

(** The fields of the class.  [created] and [_fd] are [undefined]
    until first assigned; a descriptor is a positive number, so
    [!this._fd] holds exactly when the field is unset. *)
Record t : Type := mk {
  metadata : ILogMetadata;
  created : option bool;
  pagesId : string;
  logPath : string;
  pageFolder : string;
  pageFilePath : option string;
  pageCount : nat;
  lineCount : nat;
  _fd : option positive
}.

(** The logger, the file system it writes to, and the ['pageComplete']
    events it has emitted, oldest first. *)
Record world : Type := mkWorld {
  self : t;
  fs : Fs.t;
  emitted : list ILogPageInfo
}.

Definition set_self (f : t → t) : M world unit :=
  modify (λ w, mkWorld (f (self w)) (fs w) (emitted w)).
Definition set_fs (f : Fs.t → Fs.t) : M world unit :=
  modify (λ w, mkWorld (self w) (f (fs w)) (emitted w)).
Definition emit_pageComplete (info : ILogPageInfo) : M world unit :=
  modify (λ w, mkWorld (self w) (fs w) (emitted w ++ [info])).
Definition this : M world t := λ w, (Ok (self w), w).

(** Lifting of the file operations. *)
Definition fs_openSync (path : string) : M world positive :=
  λ w, let '(fd, fs') := Fs.openSync path (fs w) in
       (Ok fd, mkWorld (self w) fs' (emitted w)).
Definition fs_writeSync (fd : positive) (line : string) : M world unit :=
  λ w, let '(r, fs') := Fs.writeSync fd line (fs w) in
       (r, mkWorld (self w) fs' (emitted w)).
Definition fs_closeSync (fd : positive) : M world unit :=
  λ w, let '(r, fs') := Fs.closeSync fd (fs w) in
       (r, mkWorld (self w) fs' (emitted w)).

(** The constructor.  [new_id] stands for [uuid.v1()], [now] for
    [new Date().toISOString()] and [pid] for [process.pid]; the
    [mkdir] and [chmod] of the page folder touch directories only. *)
Definition new (logFolder : string) (md : ILogMetadata)
    (new_id now : string) (pid : nat) : t :=
  let logName := now +:+ "_" +:+ pretty pid +:+ ".log" in
  mk md None new_id (Fs.join logFolder logName) (Fs.join logFolder "pages")
     None 0 0 None.

(** Field assignments. *)
Definition with_metadata (md : ILogMetadata) (l : t) : t :=
  mk md (created l) (pagesId l) (logPath l) (pageFolder l)
     (pageFilePath l) (pageCount l) (lineCount l) (_fd l).
Definition with_created (b : bool) (l : t) : t :=
  mk (metadata l) (Some b) (pagesId l) (logPath l) (pageFolder l)
     (pageFilePath l) (pageCount l) (lineCount l) (_fd l).
Definition with_pageFilePath (p : string) (l : t) : t :=
  mk (metadata l) (created l) (pagesId l) (logPath l) (pageFolder l)
     (Some p) (pageCount l) (lineCount l) (_fd l).
Definition with_pageCount (n : nat) (l : t) : t :=
  mk (metadata l) (created l) (pagesId l) (logPath l) (pageFolder l)
     (pageFilePath l) n (lineCount l) (_fd l).
Definition with_lineCount (n : nat) (l : t) : t :=
  mk (metadata l) (created l) (pagesId l) (logPath l) (pageFolder l)
     (pageFilePath l) (pageCount l) n (_fd l).
Definition with_fd (fd : positive) (l : t) : t :=
  mk (metadata l) (created l) (pagesId l) (logPath l) (pageFolder l)
     (pageFilePath l) (pageCount l) (lineCount l) (Some fd).

(** The name of the [n]-th page file of a stream. *)
Definition page_file (folder id : string) (n : nat) : string :=
  Fs.join folder (id +:+ "_" +:+ pretty n +:+ ".page").

Section WithPageSize.
(** The rotation threshold; the source fixes it to [PAGE_SIZE]. *)
Variable page_size : nat.
(** The text of [JSON.stringify(metadata, null, 2)]. *)
Variable stringify : ILogMetadata → string.

Definition endPage : M world unit :=
  do l <- this;
  match _fd l with
  | Some fd =>
      fs_closeSync fd ;;
      set_self (with_created false) ;;
      do l <- this;
      emit_pageComplete
        (mkPageInfo (metadata l) (pageFilePath l) (pageCount l))
  | None => ret tt
  end.

Definition newPage : M world unit :=
  endPage ;;
  do l <- this;
  let n := S (pageCount l) in
  let path := page_file (pageFolder l) (pagesId l) n in
  set_self (with_pageCount n) ;;
  set_self (with_pageFilePath path) ;;
  do fd <- fs_openSync path;
  set_self (with_fd fd) ;;
  set_self (with_created true) ;;
  set_self (with_lineCount 0).

Definition create : M world unit :=
  do l <- this;
  let md := mkMetadata (jobInfo (metadata l)) (recordId (metadata l))
                       (Some (pagesId l)) (Some (logPath l)) in
  set_self (with_metadata md) ;;
  set_fs (Fs.writeFileSync (logPath l) (stringify md)) ;;
  newPage ;;
  set_self (with_created true).

Definition write (line : string) : M world unit :=
  do l <- this;
  (if _fd l is None then create else ret tt) ;;
  do l <- this;
  match _fd l with
  | Some fd => fs_writeSync fd line
  | None => throw (TypeError "fd must be a file descriptor")
  end ;;
  set_self (with_lineCount (S (lineCount l))) ;;
  do l <- this;
  if decide (page_size ≤ lineCount l)%nat then newPage else ret tt.

Definition writeError (line : string) : M world unit := write line.

Definition end_ : M world unit := endPage.

(** [lines] written one after the other. *)
Definition write_all (lines : list string) : M world unit :=
  sequence_ (write <$> lines).

(** The life of a stream: its writes, then [end()]. *)
Definition session (lines : list string) : M world unit :=
  write_all lines ;; end_.

End WithPageSize.

(** What an observer of the closed pages sees: for every
    notification, in order, its sequence number and the number of
    lines in the file it names. *)
Definition page_lines (w : world) (info : ILogPageInfo) : option (list string) :=
  p ← pagePath info; Fs.files (fs w) !! p.

Definition closed_pages (w : world) : list (nat * option nat) :=
  (λ info, (pageNumber info, length <$> page_lines w info)) <$> emitted w.

End PagingLogger.


(** ** JavaScript values

    The leveled logging calls are typed [string] but test their
    argument at run time, so the argument is a JavaScript value.
    Objects live in a heap and are referred to by address, which is
    what makes a cyclic structure possible. *)
Module Js.

Inductive any : Type :=
  | JUndefined
  | JNull
  | JBool (b : bool)
  | JNum (z : Z)
  | JStr (s : string)
  | JObj (r : positive).

(** An object is the list of its own enumerable properties. *)
Definition heap : Type := gmap positive (list (string * any)).

(** ToBoolean *)
Definition truthy (v : any) : bool :=
  match v with
  | JUndefined | JNull => false
  | JBool b => b
  | JNum z => negb (z =? 0)%Z
  | JStr s => negb (String.eqb s "")
  | JObj _ => true
  end.

(** [typeof v === 'string'] *)
Definition is_string (v : any) : bool :=
  match v with JStr _ => true | _ => false end.

(** The cycle check of [JSON.stringify]: the serialisation walks the
    object graph depth first and raises as soon as it meets an object
    that is already on the path from the root.  Such a path holds
    distinct objects of the heap, so [fuel] above the heap's size is
    never exhausted. *)
Fixpoint cyclic_from (h : heap) (fuel : nat) (path : list positive)
    (v : any) : bool :=
  match v with
  | JObj r =>
      if decide (r ∈ path) then true
      else match fuel with
           | O => true
           | S fuel' =>
               match h !! r with
               | Some props =>
                   existsb (λ kv, cyclic_from h fuel' (r :: path) kv.2) props
               | None => false
               end
           end
  | _ => false
  end.

Definition cyclic (h : heap) (v : any) : bool :=
  cyclic_from h (S (size h)) [] v.

End Js.

(** ** The platform *)
Class Platform : Type := {
  (** [os.EOL] *)
  EOL : string;
  (** the successive readings of the system clock, in milliseconds *)
  clock : nat → Z;
  (** [Date.prototype.toISOString] *)
  toISOString : Z → string;
  (** the text [JSON.stringify(v, null, 2)] yields for a value that
      has one *)
  JSON_text : Js.heap → Js.any → string;
  EOL_not_empty : EOL ≠ ""
}.

(** [JSON.stringify(v, null, 2)]: raises on a cyclic structure, yields
    [undefined] for [undefined], and a text otherwise. *)
Definition JSON_stringify `{Platform} (h : Js.heap) (v : Js.any) : outcome Js.any :=
  if Js.cyclic h v then Throw (TypeError "Converting circular structure to JSON")
  else match v with
       | Js.JUndefined => Ok Js.JUndefined
       | _ => Ok (Js.JStr (JSON_text h v))
       end.

(** ** Strings *)

(** [s.split(sep)] for a separator; [skip] counts the characters of a
    separator just matched that are still to be dropped. *)
Fixpoint split_go (sep s : string) (skip : nat) (cur : string) : list string :=
  match s with
  | EmptyString => [cur]
  | String c s' =>
      match skip with
      | S k => split_go sep s' k cur
      | O =>
          if String.prefix sep s
          then cur :: split_go sep s' (String.length sep - 1) ""
          else split_go sep s' 0 (cur +:+ String c "")
      end
  end.

Fixpoint chars (s : string) : list string :=
  match s with
  | EmptyString => []
  | String c s' => String c "" :: chars s'
  end.

Definition split (sep s : string) : list string :=
  match sep with
  | EmptyString => chars s
  | _ => split_go sep s 0 ""
  end.

Definition is_newline (c : Ascii.ascii) : bool :=
  (Ascii.eqb c "010"%char || Ascii.eqb c "013"%char)%bool.

(** [s.replace(/(\r\n|\n|\r)/gm, '')] *)
Fixpoint strip_newlines (s : string) : string :=
  match s with
  | EmptyString => ""
  | String c s' =>
      if is_newline c then strip_newlines s' else String c (strip_newlines s')
  end.

(** ** agent/context.ts: class Context *)

(** [cm.DiagnosticLevel] *)
Inductive DiagnosticLevel : Type := Error | Warning | Status | Info | Verbose.

(** Modelled from the spec: the numeric values of the enumeration
    [cm.DiagnosticLevel], whose declaration is not among the sources.
    The data model orders the levels Error < Warning < Status < Info <
    Verbose, by increasing verbosity. *)
Definition level_num (l : DiagnosticLevel) : Z :=
  match l with
  | Error => 1 | Warning => 2 | Status => 3 | Info => 4 | Verbose => 5
  end.

Module Context.

(** What the context does to its collaborators, in order.  The
    collaborators are taken to return: a writer or a listener that
    raises is outside this model. *)
Inductive Event : Type :=
  | Emit_message (text : string)            (* this.emit('message', text) *)
  | Writer_write (i : nat) (line : string)  (* writers[i].write(line) *)
  | Writer_writeError (i : nat) (line : string)
  | Writer_end (i : nat)
  | Console_error (args : list Js.any).

(** The fields of the class.  A registered writer is seen through
    its interface only: it is represented by its threshold [level],
    and the calls made on it are events carrying its position. *)
Record t : Type := mk {
  hasErrors : bool;
  writers : list DiagnosticLevel
}.

Record world : Type := mkWorld {
  self : t;
  heap : Js.heap;
  reads : nat;        (* clock readings made so far *)
  trace : list Event
}.

Definition new (ws : list DiagnosticLevel) : t := mk false ws.

Definition this : M world t := λ w, (Ok (self w), w).
Definition log (e : Event) : M world unit :=
  modify (λ w, mkWorld (self w) (heap w) (reads w) (trace w ++ [e])).
Definition set_hasErrors (b : bool) : M world unit :=
  modify (λ w, mkWorld (mk b (writers (self w))) (heap w) (reads w) (trace w)).

Section WithPlatform.
Context `{Platform}.

(** [new Date()] *)
Definition new_Date : M world Z :=
  λ w, (Ok (clock (reads w)),
        mkWorld (self w) (heap w) (S (reads w)) (trace w)).

Definition stringify (v : Js.any) : M world Js.any :=
  λ w, (JSON_stringify (heap w) v, w).

(** [this.writers.forEach(f)] *)
Definition forEach_writer (f : nat → DiagnosticLevel → M world unit) : M world unit :=
  do l <- this;
  sequence_ (imap f (writers l)).

Definition output (line : string) : M world unit :=
  forEach_writer (λ i _, log (Writer_write i line)).

Definition tag_value (tag : option string) : Js.any :=
  match tag with Some t => Js.JStr t | None => Js.JNull end.

Definition tag_prefix (tag : option string) : string :=
  match tag with Some t => "[" +:+ t +:+ "] " | None => "" end.

(** The body of the loop over the lines of a message. *)
Definition write_line (level : DiagnosticLevel) (tag : option string)
    (raw : string) : M world unit :=
  let line := strip_newlines raw in
  let prefix := tag_prefix tag in
  do now <- new_Date;
  let dateTime := toISOString now +:+ ": " in
  log (Emit_message (prefix +:+ line)) ;;
  let logLine := prefix +:+ dateTime +:+ line +:+ EOL in
  forEach_writer (λ i wl,
    if decide (level_num level ≤ level_num wl)%Z then
      match level with
      | Error => log (Writer_writeError i logLine)
      | _ => log (Writer_write i logLine)
      end
    else ret tt).

Definition _write (level : DiagnosticLevel) (tag : option string)
    (message : Js.any) : M world unit :=
  match message with
  | Js.JStr s => sequence_ (write_line level tag <$> split EOL s)
  | _ =>
      log (Console_error
             [Js.JStr ("non-string write: " +:+ pretty (level_num level));
              tag_value tag]) ;;
      do text <- stringify message;
      log (Console_error [text])
  end.

Definition error (message : Js.any) : M world unit :=
  set_hasErrors true ;;
  _write Error (Some "Error") message.

Definition warning (message : Js.any) : M world unit :=
  _write Warning (Some "Warning") message.

Definition info (message : Js.any) : M world unit :=
  _write Info None message.

Definition verbose (message : Js.any) : M world unit :=
  _write Verbose None message.

Definition status (message : Js.any) : M world unit :=
  _write Status None message.

Definition dashes : string :=
  "----------------------------------------------------------------------".

Definition heading_text (message : string) : string :=
  let delim := dashes +:+ EOL in delim +:+ message +:+ delim.

Definition heading (message : string) : M world unit :=
  forEach_writer (λ _ wl,
    if decide (level_num Status ≤ level_num wl)%Z
    then _write Info None (Js.JStr (heading_text message))
    else ret tt).

Definition section_text (message : string) : string :=
  " " +:+ EOL +:+ "+++++++" +:+ message +:+ " " +:+ EOL.

Definition section (message : string) : M world unit :=
  forEach_writer (λ _ wl,
    if decide (level_num Status ≤ level_num wl)%Z
    then _write Info None (Js.JStr (section_text message))
    else ret tt).

Definition end_ : M world unit :=
  forEach_writer (λ i _, log (Writer_end i)).

(** The public methods, as data, and a client that issues calls
    one after the other, going on after a call that raised. *)
Inductive call : Type :=
  | Call_output (line : string)
  | Call_error (message : Js.any)
  | Call_warning (message : Js.any)
  | Call_info (message : Js.any)
  | Call_verbose (message : Js.any)
  | Call_status (message : Js.any)
  | Call_heading (message : string)
  | Call_section (message : string)
  | Call_end.

Definition exec (c : call) : M world unit :=
  match c with
  | Call_output l => output l
  | Call_error m => error m
  | Call_warning m => warning m
  | Call_info m => info m
  | Call_verbose m => verbose m
  | Call_status m => status m
  | Call_heading m => heading m
  | Call_section m => section m
  | Call_end => end_
  end.

Definition exec_all (cs : list call) (w : world) : world :=
  foldl (λ w c, (exec c w).2) w cs.

End WithPlatform.

(** The calls made on writer [i], in order. *)
Inductive WriterCall : Type :=
  | Write (line : string)
  | WriteError (line : string)
  | End_.

Definition to_writer (i : nat) (e : Event) : option WriterCall :=
  match e with
  | Writer_write j l => if decide (i = j) then Some (Write l) else None
  | Writer_writeError j l => if decide (i = j) then Some (WriteError l) else None
  | Writer_end j => if decide (i = j) then Some End_ else None
  | _ => None
  end.

Definition received (i : nat) (tr : list Event) : list WriterCall :=
  omap (to_writer i) tr.

End Context.

(** ** agent/context.ts: class JobContext *)

(** Modelled from the spec: the enumeration [ifm.TaskResult], declared
    with the server's API and not among the sources.  The code names
    [Failed] only; the other values stand for the results a task may
    report. *)
Inductive TaskResult : Type :=
  Succeeded | SucceededWithIssues | Failed | Cancelled | Skipped | Abandoned.

(** Modelled from the spec: the enumeration [ifm.TimelineRecordState],
    not among the sources; a record goes from Pending to InProgress to
    Completed. *)
Inductive TimelineRecordState : Type := Pending | InProgress | Completed.

(** [var LOCK_RENEWAL_MS = 60 * 1000;] *)
Definition LOCK_RENEWAL_MS : Z := 60 * 1000.

(** The fields of [ifm.JobRequestMessage] read by the class. *)
Record JobRequestMessage : Type := mkJob {
  jobId : string;
  jobName : string;
  requestId : Z;
  lockToken : string
}.

(** [ifm.TaskAgentJobRequest], as filled in by [finishJob]. *)
Record TaskAgentJobRequest : Type := mkJobRequest {
  req_requestId : Z;
  req_finishTime : Z;
  req_result : TaskResult
}.

Module JobContext.

(** The methods of [cm.IFeedbackChannel] called by the class. *)
Inductive FeedbackCall : Type :=
  | setCurrentOperation (id op : string)
  | setName (id name : string)
  | setStartTime (id : string) (time : Z)
  | setFinishTime (id : string) (time : Z)
  | setState (id : string) (state : TimelineRecordState)
  | setType (id type : string)
  | setWorkerName (id name : string)
  | setParentId (id parent : string)
  | setResult (id : string) (result : TaskResult)
  | queueConsoleSection (message : string)
  | queueLogPage (info : ILogPageInfo)
  | drain
  | updateJobRequest (poolId : Z) (lockToken : string) (request : TaskAgentJobRequest)
  | finish.

Inductive Event : Type :=
  | Feedback (c : FeedbackCall)      (* a call on the feedback channel *)
  | Drained (err : Js.any)           (* drain's callback runs *)
  | Updated (err : Js.any)           (* updateJobRequest's callback runs *)
  | Finished (err : Js.any)          (* finish's callback runs *)
  | Console_log (text : string).

Record world : Type := mkWorld {
  reads : nat;        (* clock readings made so far *)
  trace : list Event
}.

(** Modelled from the spec: the feedback channel, a collaborator whose
    implementation is not among the sources.  Per its interface,
    [drain], [updateJobRequest] and [finish] complete through the
    callback they are given, "with an error or none"; the error each
    of them reports may depend on everything that happened before. *)
Record Channel : Type := mkChannel {
  drain_result : list Event → Js.any;
  update_result : list Event → Js.any;
  finish_result : list Event → Js.any
}.

(** The fields of the class read by its methods. *)
Record t : Type := mk {
  job : JobRequestMessage;
  poolId : Z;        (* this.config.poolId *)
  agentName : string (* this.config.settings.agentName *)
}.

(** A callback [(err: any) => void]. *)
Definition callback : Type := Js.any → world → world.

Definition log (e : Event) (w : world) : world :=
  mkWorld (reads w) (trace w ++ [e]).

Section WithChannel.
Context `{Platform}.
Variable feedback : Channel.
Variable this : t.

(** [new Date()] *)
Definition new_Date (w : world) : Z * world :=
  (clock (reads w), mkWorld (S (reads w)) (trace w)).

(** The channel's queueing methods return at once. *)
Definition call (c : FeedbackCall) (w : world) : world := log (Feedback c) w.

Definition feedback_drain (k : callback) (w : world) : world :=
  let w := call drain w in
  let err := drain_result feedback (trace w) in
  k err (log (Drained err) w).

Definition feedback_updateJobRequest (pool : Z) (token : string)
    (request : TaskAgentJobRequest) (k : callback) (w : world) : world :=
  let w := call (updateJobRequest pool token request) w in
  let err := update_result feedback (trace w) in
  k err (log (Updated err) w).

Definition feedback_finish (k : callback) (w : world) : world :=
  let w := call finish w in
  let err := finish_result feedback (trace w) in
  k err (log (Finished err) w).

(** [ExecutionContext]: the listener put on the logger's
    ['pageComplete'] event. *)
Definition on_pageComplete (info : ILogPageInfo) (w : world) : world :=
  call (queueLogPage info) w.

Definition setTaskResult (id name : string) (result : TaskResult)
    (w : world) : world :=
  let w := call (setCurrentOperation id ("Completed " +:+ name)) w in
  let w := call (setState id Completed) w in
  let '(now, w) := new_Date w in
  let w := call (setFinishTime id now) w in
  call (setResult id result) w.

Definition finishJob (result : TaskResult) (cb : callback) (w : world) : world :=
  let w := setTaskResult (jobId (job this)) (jobName (job this)) result w in
  feedback_drain (λ err w,
    let '(result, w) :=
      if Js.truthy err
      then (Failed, log (Console_log "Failed to drain queue") w)
      else (result, w) in
    let '(now, w) := new_Date w in
    let jobRequest := mkJobRequest (requestId (job this)) now result in
    feedback_updateJobRequest (poolId this) (lockToken (job this))
                              jobRequest cb w) w.

Definition finishLogs (cb : callback) (w : world) : world :=
  feedback_finish cb w.

Definition writeConsoleSection (message : string) (w : world) : world :=
  call (queueConsoleSection message) w.

Definition setJobInProgress (w : world) : world :=
  let id := jobId (job this) in
  let w := call (setCurrentOperation id "Starting") w in
  let w := call (setName id (jobName (job this))) w in
  let '(now, w) := new_Date w in
  let w := call (setStartTime id now) w in
  let w := call (setState id InProgress) w in
  let w := call (setType id "Job") w in
  call (setWorkerName id (agentName this)) w.

Definition registerPendingTask (id name : string) (w : world) : world :=
  let w := call (setCurrentOperation id "Initializing") w in
  let w := call (setParentId id (jobId (job this))) w in
  let w := call (setName id name) w in
  let w := call (setState id Pending) w in
  let w := call (setType id "Task") w in
  call (setWorkerName id (agentName this)) w.

Definition setTaskStarted (id name : string) (w : world) : world :=
  let w := call (setCurrentOperation (jobId (job this)) ("Starting " +:+ name)) w in
  let w := call (setCurrentOperation id ("Starting " +:+ name)) w in
  let '(now, w) := new_Date w in
  let w := call (setStartTime id now) w in
  call (setState id InProgress) w.

End WithChannel.

(** Modelled from the spec: the timeline records kept behind the
    feedback channel (not among the sources).  Per the data model a
    record is addressed by an id and each setter is a partial update
    of one record; the last update of a field wins. *)
Record TimelineRecord : Type := mkRecord {
  currentOperation : option string;
  name : option string;
  type : option string;
  startTime : option Z;
  finishTime : option Z;
  state : option TimelineRecordState;
  result : option TaskResult;
  parentId : option string;
  workerName : option string
}.

Definition blank : TimelineRecord :=
  mkRecord None None None None None None None None None.

Definition update (c : FeedbackCall) : option (string * (TimelineRecord → TimelineRecord)) :=
  match c with
  | setCurrentOperation id v => Some (id, λ r,
      mkRecord (Some v) (name r) (type r) (startTime r) (finishTime r)
               (state r) (result r) (parentId r) (workerName r))
  | setName id v => Some (id, λ r,
      mkRecord (currentOperation r) (Some v) (type r) (startTime r) (finishTime r)
               (state r) (result r) (parentId r) (workerName r))
  | setType id v => Some (id, λ r,
      mkRecord (currentOperation r) (name r) (Some v) (startTime r) (finishTime r)
               (state r) (result r) (parentId r) (workerName r))
  | setStartTime id v => Some (id, λ r,
      mkRecord (currentOperation r) (name r) (type r) (Some v) (finishTime r)
               (state r) (result r) (parentId r) (workerName r))
  | setFinishTime id v => Some (id, λ r,
      mkRecord (currentOperation r) (name r) (type r) (startTime r) (Some v)
               (state r) (result r) (parentId r) (workerName r))
  | setState id v => Some (id, λ r,
      mkRecord (currentOperation r) (name r) (type r) (startTime r) (finishTime r)
               (Some v) (result r) (parentId r) (workerName r))
  | setResult id v => Some (id, λ r,
      mkRecord (currentOperation r) (name r) (type r) (startTime r) (finishTime r)
               (state r) (Some v) (parentId r) (workerName r))
  | setParentId id v => Some (id, λ r,
      mkRecord (currentOperation r) (name r) (type r) (startTime r) (finishTime r)
               (state r) (result r) (Some v) (workerName r))
  | setWorkerName id v => Some (id, λ r,
      mkRecord (currentOperation r) (name r) (type r) (startTime r) (finishTime r)
               (state r) (result r) (parentId r) (Some v))
  | _ => None
  end.

Definition apply_event (tl : gmap string TimelineRecord) (e : Event)
    : gmap string TimelineRecord :=
  match e with
  | Feedback c =>
      match update c with
      | Some (id, f) => <[id := f (default blank (tl !! id))]> tl
      | None => tl
      end
  | _ => tl
  end.

Definition timeline (tr : list Event) : gmap string TimelineRecord :=
  foldl apply_event ∅ tr.

End JobContext.


(** ** Notions used to state the properties *)

(** The [j]-th run of [n] consecutive elements of [l], counting from
    zero; the last run may be shorter and the ones after it are empty. *)
Definition chunk {A} (n j : nat) (l : list A) : list A := take n (drop (j * n) l).

(** The number of pages the specification expects for [n] lines and
    page size [p]: the quotient rounded up. *)
Definition ceil_div (n p : nat) : nat := (n + p - 1) / p.

Module PagingLoggerSpec.
Import PagingLogger.


(** The effect of [newPage] once the page before is closed. *)
Definition opened (w : world) : world :=
  let n := S (pageCount (self w)) in
  let path := page_file (pageFolder (self w)) (pagesId (self w)) n in
  let fd := fresh (dom (Fs.open_fds (fs w))) in
  mkWorld
    (with_lineCount 0 (with_created true (with_fd fd
       (with_pageFilePath path (with_pageCount n (self w))))))
    (Fs.mk (<[path := default [] (Fs.files (fs w) !! path)]> (Fs.files (fs w)))
           (<[fd := path]> (Fs.open_fds (fs w))))
    (emitted w).

(** The metadata as completed by [create]. *)
Definition completed (l : t) : ILogMetadata :=
  mkMetadata (jobInfo (metadata l)) (recordId (metadata l))
             (Some (pagesId l)) (Some (logPath l)).

(** A logger just constructed, on a disk [fs0], nothing emitted yet. *)
Definition fresh_world (logFolder : string) (md : ILogMetadata)
    (new_id now : string) (pid : nat) (fs0 : Fs.t) : world :=
  mkWorld (new logFolder md new_id now pid) fs0 [].

(** The notification that closes page [j] of the stream of [l]. *)
Definition page_info (l : t) (j : nat) : ILogPageInfo :=
  mkPageInfo (completed l) (Some (page_file (pageFolder l) (pagesId l) j)) j.

(** The state of a stream of logger [l0] after the lines [ls], with
    page size [P]: [q] pages have been closed and notified, page
    [q + 1] is open and holds the last [r] lines. *)
Definition written (P : nat) (l0 : t) (ls : list string) (q r : nat)
    (w : world) : Prop :=
  length ls = q * P + r ∧ r < P ∧
  ∃ fd,
    self w = mk (completed l0) (Some true) (pagesId l0) (logPath l0)
                (pageFolder l0)
                (Some (page_file (pageFolder l0) (pagesId l0) (S q)))
                (S q) r (Some fd) ∧
    Fs.open_fds (fs w) !! fd = Some (page_file (pageFolder l0) (pagesId l0) (S q)) ∧
    (∀ j, Fs.files (fs w) !! page_file (pageFolder l0) (pagesId l0) (S j) =
          if decide (j ≤ q) then Some (chunk P j ls) else None) ∧
    emitted w = page_info l0 <$> seq 1 q.

End PagingLoggerSpec.

Module ContextSpec.
Import Context.

(** A writer with threshold [wl] takes a message of level [level]. *)
Definition accepts (wl level : DiagnosticLevel) : bool :=
  bool_decide (level_num level ≤ level_num wl)%Z.

(** The method a line of level [level] is handed to. *)
Definition delivery (level : DiagnosticLevel) (line : string) : WriterCall :=
  match level with Error => WriteError line | _ => Write line end.

Definition delivery_event (level : DiagnosticLevel) (i : nat) (line : string) : Event :=
  match level with Error => Writer_writeError i line | _ => Writer_write i line end.

(** The leveled calls: their level, tag and argument. *)
Definition leveled (c : call) : option (DiagnosticLevel * option string * Js.any) :=
  match c with
  | Call_error m => Some (Error, Some "Error", m)
  | Call_warning m => Some (Warning, Some "Warning", m)
  | Call_info m => Some (Info, None, m)
  | Call_verbose m => Some (Verbose, None, m)
  | Call_status m => Some (Status, None, m)
  | _ => None
  end.

Section WithPlatform.
Context `{Platform}.

(** The persisted form of a raw line read at time [now]. *)
Definition persisted_line (tag : option string) (now : Z) (raw : string) : string :=
  tag_prefix tag +:+ (toISOString now +:+ ": ") +:+ strip_newlines raw +:+ EOL.

(** The persisted lines of a message, the clock having been read [r]
    times before. *)
Definition persisted_lines (tag : option string) (r : nat) (message : string)
    : list string :=
  imap (λ k raw, persisted_line tag (clock (r + k)) raw) (split EOL message).

(** What [write_line] does for one line. *)
Definition line_events (level : DiagnosticLevel) (tag : option string)
    (ws : list DiagnosticLevel) (now : Z) (raw : string) : list Event :=
  Emit_message (tag_prefix tag +:+ strip_newlines raw) ::
  mjoin (imap (λ i wl, if accepts wl level
                       then [delivery_event level i (persisted_line tag now raw)]
                       else []) ws).

(** What [_write] does for the lines [raws]. *)
Definition lines_events (level : DiagnosticLevel) (tag : option string)
    (ws : list DiagnosticLevel) (r : nat) (raws : list string) : list Event :=
  mjoin (imap (λ k raw, line_events level tag ws (clock (r + k)) raw) raws).

End WithPlatform.

(** The world after [n] more clock readings and the events [es]. *)
Definition advance (n : nat) (es : list Event) (w : world) : world :=
  mkWorld (self w) (heap w) (n + reads w) (trace w ++ es).

(** A computation keeps a property of the world, also when it raises. *)
Definition keeps {A} (P : world → Prop) (m : M world A) : Prop :=
  ∀ w, P w → P (m w).2.

(** The number of writers that pass the test of [heading] and [section]. *)
Definition status_writers (ws : list DiagnosticLevel) : nat :=
  length (filter (λ wl, (level_num Status ≤ level_num wl)%Z) ws).

End ContextSpec.

Module JobContextSpec.
Import JobContext.

Section WithPlatform.
Context `{Platform}.

(** The calls by which [finishJob] completes the job's own record,
    the clock having been read [r] times before. *)
Definition completion (this : t) (result : TaskResult) (r : nat) : list Event :=
  [Feedback (setCurrentOperation (jobId (job this))
                                 ("Completed " +:+ jobName (job this)));
   Feedback (setState (jobId (job this)) Completed);
   Feedback (setFinishTime (jobId (job this)) (clock r));
   Feedback (setResult (jobId (job this)) result)].

(** The history the feedback channel has seen when [drain] is called. *)
Definition at_drain (this : t) (result : TaskResult) (w : world) : list Event :=
  trace w ++ completion this result (reads w) ++ [Feedback drain].

(** The error, or none, with which the drain of [finishJob] completes. *)
Definition drain_error (feedback : Channel) (this : t) (result : TaskResult)
    (w : world) : Js.any :=
  drain_result feedback (at_drain this result w).

(** The final job request update. *)
Definition final_update (this : t) (result : TaskResult) (r : nat) : Event :=
  Feedback (updateJobRequest (poolId this) (lockToken (job this))
              (mkJobRequest (requestId (job this)) (clock r) result)).

End WithPlatform.

End JobContextSpec.

(** ** A platform to run examples on

    Line feed as the end of a line, a clock that starts at
    2015-01-01T00:00:00.000Z and advances by one millisecond at each
    reading, dates shown as their count of milliseconds (a stand-in for
    the ISO text), values shown as an empty object. *)
Definition line_feed : string := String "010"%char "".

Definition sample_platform : Platform :=
  {| EOL := line_feed;
     clock := λ n, (1420070400000 + Z.of_nat n)%Z;
     toISOString := λ z, pretty z;
     JSON_text := λ _ _, "{}";
     EOL_not_empty := ltac:(done) |}.

(** ** Further notions: the stream while it is open *)

Module PagingLoggerMore.
Import PagingLogger PagingLoggerSpec.

(** A stream of logger [l0] that has been created and not ended, on a
    disk whose open descriptors were [fds0] before: the logger holds
    one more descriptor, open on one of its page files; the metadata
    file holds [data]; every notification carries the completed
    metadata. *)
Definition streaming (l0 : t) (fds0 : gmap positive string) (data : string)
    (w : world) : Prop :=
  ∃ fd n,
    _fd (self w) = Some fd ∧
    pagesId (self w) = pagesId l0 ∧
    pageFolder (self w) = pageFolder l0 ∧
    metadata (self w) = completed l0 ∧
    fds0 !! fd = None ∧
    Fs.open_fds (fs w) = <[fd := page_file (pageFolder l0) (pagesId l0) n]> fds0 ∧
    Fs.files (fs w) !! logPath l0 = Some [data] ∧
    Forall (λ info, logInfo info = completed l0) (emitted w).

End PagingLoggerMore.

(** ** Further notions: what listeners and writers observe *)

Module ContextMore.
Import Context ContextSpec.

(** The texts of the ['message'] events, in order. *)
Definition messages (tr : list Event) : list string :=
  omap (λ e, match e with Emit_message t => Some t | _ => None end) tr.

Definition is_error_call (c : call) : bool :=
  match c with Call_error _ => true | _ => false end.

(** A text without carriage return or line feed. *)
Definition no_line_break (s : string) : Prop :=
  Forall (λ c, is_newline c = false) (String.list_ascii_of_string s).

Section WithPlatform.
Context `{Platform}.

(** The events of [k] passages of the lines [raws] through [_write],
    one after the other, the clock having been read [r] times before. *)
Definition repeated_events (level : DiagnosticLevel) (tag : option string)
    (ws : list DiagnosticLevel) (r : nat) (raws : list string) (k : nat)
    : list Event :=
  mjoin ((λ j, lines_events level tag ws (r + j * length raws) raws) <$> seq 0 k).

End WithPlatform.

End ContextMore.

(** ** agent/context.ts: classes AgentContext and ExecutionContext *)

Module AgentContext.

(** The writers the constructor registers: the console at Status, then
    the diagnostic file, at Verbose when the process's verbosity flag
    is set and at Info otherwise. *)
Definition file_level (verbose : bool) : DiagnosticLevel :=
  if verbose then Verbose else Info.

Definition new (verbose : bool) : Context.t :=
  Context.new [Status; file_level verbose].

(** [trace(message)]: [this.fileWriter.write(message)]; the file writer
    is the second writer. *)
Definition trace (message : string) : M Context.world unit :=
  Context.log (Context.Writer_write 1 message).

End AgentContext.

Module ExecutionContext.

(** [process.env[cm.envVerbose] ? Verbose : Info] *)
Definition logger_level (verbose : bool) : DiagnosticLevel :=
  if verbose then Verbose else Info.

(** The logger the constructor makes, in [<workFolder>/_logs], for the
    job information and the record given. *)
Definition new_logger (workFolder jobInfo recordId new_id now : string)
    (pid : nat) : PagingLogger.t :=
  PagingLogger.new (Fs.join workFolder "_logs")
                   (mkMetadata jobInfo recordId None None) new_id now pid.

(** [super([logger])] *)
Definition new (verbose : bool) : Context.t :=
  Context.new [logger_level verbose].

(** The calls the context makes on its one writer, carried out by the
    logger. *)
Definition writer_call (P : nat) (stringify : ILogMetadata → string)
    (c : Context.WriterCall) : M PagingLogger.world unit :=
  match c with
  | Context.Write line => PagingLogger.write P stringify line
  | Context.WriteError line => PagingLogger.writeError P stringify line
  | Context.End_ => PagingLogger.end_
  end.

Definition carry_out (P : nat) (stringify : ILogMetadata → string)
    (cs : list Context.WriterCall) : M PagingLogger.world unit :=
  sequence_ (writer_call P stringify <$> cs).

(** The lines handed to the writer. *)
Definition lines_of (cs : list Context.WriterCall) : list string :=
  omap (λ c, match c with
             | Context.Write line | Context.WriteError line => Some line
             | Context.End_ => None
             end) cs.

(** The listener on ['pageComplete'], run for the notifications of
    the logger in order. *)
Definition forward_pages (infos : list ILogPageInfo) (w : JobContext.world)
    : JobContext.world :=
  foldl (λ w info, JobContext.on_pageComplete info w) w infos.

End ExecutionContext.

Module ExecutionContextSpec.
Import Context.

(** Writer [i] has not been ended. *)
Definition never_ended (i : nat) (w : world) : Prop :=
  Forall (λ c, c ≠ End_) (received i (trace w)).

(** The calls that say nothing at or below the Status level. *)
Definition below_console (c : call) : bool :=
  match c with
  | Call_info _ | Call_verbose _ | Call_heading _ | Call_section _ => true
  | _ => false
  end.

Definition is_verbose_call (c : call) : bool :=
  match c with Call_verbose _ => true | _ => false end.

End ExecutionContextSpec.

Module JobContextMore.
Import JobContext.

(** What one event does to the record [id], read on the record
    alone. *)
Definition record_step (id : string) (o : option TimelineRecord) (e : Event)
    : option TimelineRecord :=
  match e with
  | Feedback c =>
      match update c with
      | Some (id', f) => if decide (id' = id) then Some (f (default blank o)) else o
      | None => o
      end
  | _ => o
  end.

End JobContextMore.

(** ** The closing branch of [endPage] and the ways into it *)
Module PagingLoggerBranch.
Import PagingLogger.

(** The body of [if (this._fd) { ... }] in [endPage]: close the
    descriptor, clear [created], notify. *)
Definition closing_branch (fd : positive) : M world unit :=
  fs_closeSync fd ;;
  set_self (with_created false) ;;
  do l <- this;
  emit_pageComplete (mkPageInfo (metadata l) (pageFilePath l) (pageCount l)).


Section WithPageSize.
Variable page_size : nat.
Variable stringify : ILogMetadata → string.

(** The statements of [write] before the test of the counter: the
    lazy creation, the [writeSync] and the increment. *)
Definition write_before_test (line : string) : M world unit :=
  do l <- this;
  (if _fd l is None then create stringify else ret tt) ;;
  do l <- this;
  match _fd l with
  | Some fd => fs_writeSync fd line
  | None => throw (TypeError "fd must be a file descriptor")
  end ;;
  set_self (with_lineCount (S (lineCount l))).

(** [write] reaches [endPage] through [newPage] only: from [create],
    where the descriptor field is unset and the branch is skipped, and
    from the test of the counter.  It gets into the branch when the
    statements before the test return and the counter has reached the
    page size. *)
Definition write_enters_branch (line : string) (w : world) : bool :=
  match write_before_test line w with
  | (Ok _, w') => bool_decide (page_size ≤ lineCount (self w'))
  | (Throw _, _) => false
  end.

End WithPageSize.


End PagingLoggerBranch.

(** * Properties *)

(** ** Strings and lists *)

Lemma to_list_app (s1 s2 : string) :
  String.list_ascii_of_string (s1 +:+ s2) =
  String.list_ascii_of_string s1 ++ String.list_ascii_of_string s2.
Proof.
  induction s1 as [|c s1 IH]; [done|].
  change (String c s1 +:+ s2) with (String c (s1 +:+ s2)). cbn. by rewrite IH.
Qed.


Lemma to_list_inj (s1 s2 : string) :
  String.list_ascii_of_string s1 = String.list_ascii_of_string s2 → s1 = s2.
Proof.
  intros E. rewrite <- (String.string_of_list_ascii_of_string s1),
    <- (String.string_of_list_ascii_of_string s2). by rewrite E.
Qed.

Lemma string_app_assoc (s1 s2 s3 : string) :
  s1 +:+ s2 +:+ s3 = (s1 +:+ s2) +:+ s3.
Proof.
  apply to_list_inj. by rewrite !to_list_app, (assoc_L (++)).
Qed.

Lemma string_app_inj_r (t s1 s2 : string) : s1 +:+ t = s2 +:+ t → s1 = s2.
Proof.
  intros E. apply to_list_inj.
  apply (f_equal String.list_ascii_of_string) in E. rewrite !to_list_app in E.
  by apply app_inv_tail in E.
Qed.

Lemma string_last_ne (s1 s2 : string) (c1 c2 : Ascii.ascii) :
  c1 ≠ c2 → s1 +:+ String c1 "" ≠ s2 +:+ String c2 "".
Proof.
  intros Hc E. apply (f_equal String.list_ascii_of_string) in E.
  rewrite !to_list_app in E. cbn in E.
  apply (f_equal last) in E. rewrite !last_snoc in E. congruence.
Qed.

Lemma page_file_inj folder id : Inj (=) (=) (PagingLogger.page_file folder id).
Proof.
  intros n m E. unfold PagingLogger.page_file, Fs.join in E.
  do 4 apply String.app_inj in E.
  apply string_app_inj_r in E. by apply pretty_nat_inj in E.
Qed.

Lemma page_file_not_log logFolder md id now pid n :
  let l := PagingLogger.new logFolder md id now pid in
  PagingLogger.page_file (PagingLogger.pageFolder l) (PagingLogger.pagesId l) n
  ≠ PagingLogger.logPath l.
Proof.
  cbn. unfold PagingLogger.page_file, Fs.join.
  change ".page" with (".pag" +:+ "e"). change ".log" with (".lo" +:+ "g").
  rewrite !string_app_assoc. by apply string_last_ne.
Qed.

Section Chunks.
Context {A : Type}.
Implicit Types (l : list A) (n j : nat).

Lemma chunk_app_before n j l k :
  S j * n ≤ length l → chunk n j (l ++ k) = chunk n j l.
Proof.
  intros H. unfold chunk. rewrite drop_app_le by lia.
  apply take_app_le. rewrite length_drop. lia.
Qed.

Lemma chunk_app_last n j l x :
  j * n ≤ length l → length l < S j * n →
  chunk n j (l ++ [x]) = chunk n j l ++ [x].
Proof.
  intros H1 H2. unfold chunk. rewrite drop_app_le by lia.
  rewrite !take_ge; [done| |]; rewrite ?length_app, length_drop; cbn; lia.
Qed.

Lemma chunk_beyond n j l : length l ≤ j * n → chunk n j l = [].
Proof. intros H. unfold chunk. rewrite drop_ge by done. apply take_nil. Qed.

Lemma chunk_length_full n j l : S j * n ≤ length l → length (chunk n j l) = n.
Proof. intros H. unfold chunk. rewrite length_take, length_drop. lia. Qed.

Lemma chunk_length_last n j l :
  j * n ≤ length l → length l < S j * n →
  length (chunk n j l) = length l - j * n.
Proof. intros H1 H2. unfold chunk. rewrite length_take, length_drop. lia. Qed.

End Chunks.

Lemma split_go_not_nil sep s skip cur : split_go sep s skip cur ≠ [].
Proof.
  revert skip cur. induction s as [|c s IH]; intros skip cur; [done|].
  cbn [split_go]. destruct skip; [|apply IH].
  destruct (String.prefix sep (String c s)); [done|apply IH].
Qed.

Lemma split_not_nil sep s : sep ≠ "" → split sep s ≠ [].
Proof. destruct sep; [done|]. intros _. apply split_go_not_nil. Qed.

(** ** The cycle check

    Fuel above the size of the heap is never exhausted: the path holds
    distinct objects of the heap. *)
Lemma cyclic_from_fuel (h : Js.heap) fuel1 fuel2 path v :
  NoDup path → (∀ r, r ∈ path → is_Some (h !! r)) →
  size h < fuel1 + length path → size h < fuel2 + length path →
  Js.cyclic_from h fuel1 path v = Js.cyclic_from h fuel2 path v.
Proof.
  assert (∀ path, NoDup path → (∀ r, r ∈ path → is_Some (h !! r)) →
                  length path ≤ size h) as Hlen.
  { clear. intros path Hnd Hsub.
    rewrite <- (size_list_to_set (C := gset positive) path) by done.
    rewrite <- (size_dom (D := gset positive) h). apply subseteq_size.
    intros r Hr%elem_of_list_to_set. by apply elem_of_dom, Hsub. }
  revert fuel2 path v.
  induction fuel1 as [|f1 IH]; intros fuel2 path v Hnd Hsub H1 H2.
  { specialize (Hlen path Hnd Hsub). lia. }
  destruct fuel2 as [|f2]; [specialize (Hlen path Hnd Hsub); lia|].
  destruct v as [| | | | |r]; try done. cbn.
  case_decide as Hr; [done|]. destruct (h !! r) as [props|] eqn:Eh; [|done].
  assert (∀ v', Js.cyclic_from h f1 (r :: path) v' =
                Js.cyclic_from h f2 (r :: path) v') as Hrec.
  { intros v'. apply IH.
    - by constructor.
    - intros r' [->|Hr']%elem_of_cons; [by rewrite Eh|by apply Hsub].
    - cbn. lia.
    - cbn. lia. }
  clear -Hrec. induction props as [|kv props IHp]; [done|].
  cbn. by rewrite Hrec, IHp.
Qed.

Lemma cyclic_fuel (h : Js.heap) fuel v :
  size h < fuel → Js.cyclic h v = Js.cyclic_from h fuel [] v.
Proof.
  intros Hf. apply cyclic_from_fuel; [constructor|by intros r ?%elem_of_nil| |];
    cbn; lia.
Qed.

(** A value without an object is not cyclic. *)
Lemma cyclic_primitive (h : Js.heap) v :
  (∀ r, v ≠ Js.JObj r) → Js.cyclic h v = false.
Proof. intros Hv. destruct v; try done. by destruct (Hv r). Qed.

(** ** The paging logger *)

Section PagingLoggerFacts.
Import PagingLogger PagingLoggerSpec.
Variable page_size : nat.
Variable stringify : ILogMetadata → string.

Local Abbreviation create := (create stringify).
Local Abbreviation write := (write page_size stringify).
Local Abbreviation write_all := (write_all page_size stringify).
Local Abbreviation session := (session page_size stringify).

Ltac simpl_logger :=
  unfold PagingLoggerSpec.written, opened, Fs.writeFileSync;
  cbn [self fs emitted Fs.files Fs.open_fds metadata created pagesId logPath
       pageFolder pageFilePath pageCount lineCount _fd with_created
       with_lineCount with_fd with_pageFilePath with_pageCount with_metadata
       fst snd default from_option length].

Lemma endPage_unset w :
  _fd (self w) = None → endPage w = (Ok tt, w).
Proof. intros E. unfold PagingLogger.endPage, bind, this. by rewrite E. Qed.

Lemma endPage_open w fd path :
  _fd (self w) = Some fd → Fs.open_fds (fs w) !! fd = Some path →
  endPage w =
    (Ok tt,
     mkWorld (with_created false (self w))
             (Fs.mk (Fs.files (fs w)) (delete fd (Fs.open_fds (fs w))))
             (emitted w ++ [mkPageInfo (metadata (self w)) (pageFilePath (self w))
                                       (pageCount (self w))])).
Proof.
  intros E O. unfold PagingLogger.endPage, bind, this, fs_closeSync, Fs.closeSync.
  rewrite E. cbn. by rewrite O.
Qed.



Lemma newPage_unfold w :
  newPage w =
    match endPage w with
    | (Ok _, w1) => (Ok tt, opened w1)
    | (Throw e, w1) => (Throw e, w1)
    end.
Proof.
  unfold PagingLogger.newPage, bind. destruct (endPage w) as [[[]|e] w1]; done.
Qed.

Lemma newPage_unset w :
  _fd (self w) = None → newPage w = (Ok tt, opened w).
Proof. intros E. by rewrite newPage_unfold, endPage_unset. Qed.



Lemma create_unfold w :
  _fd (self w) = None →
  create w =
    (Ok tt,
     let w1 := opened
       (mkWorld (with_metadata (completed (self w)) (self w))
                (Fs.writeFileSync (logPath (self w))
                                  (stringify (completed (self w))) (fs w))
                (emitted w)) in
     mkWorld (with_created true (self w1)) (fs w1) (emitted w1)).
Proof.
  intros E. unfold PagingLogger.create, bind, this, set_self, set_fs, modify.
  cbn. rewrite newPage_unset by done. done.
Qed.

(** A write on a logger without a descriptor is [create] followed by
    the same write. *)
Lemma write_unset line w :
  _fd (self w) = None → write line w = write line (create w).2.
Proof.
  intros E. rewrite create_unfold by done.
  unfold PagingLogger.write at 1. unfold bind at 1 2. unfold this at 1.
  cbn. rewrite E. rewrite create_unfold by done. done.
Qed.

Lemma write_open line w fd path :
  _fd (self w) = Some fd → Fs.open_fds (fs w) !! fd = Some path →
  write line w =
    let w1 :=
      mkWorld (with_lineCount (S (lineCount (self w))) (self w))
              (Fs.mk (<[path := default [] (Fs.files (fs w) !! path) ++ [line]]>
                        (Fs.files (fs w)))
                     (Fs.open_fds (fs w)))
              (emitted w) in
    if decide (page_size ≤ S (lineCount (self w))) then newPage w1
    else (Ok tt, w1).
Proof.
  intros E O.
  unfold PagingLogger.write, bind, this, fs_writeSync, Fs.writeSync, ret,
    set_self, modify.
  rewrite E. cbn. rewrite E. cbn. rewrite O. cbn.
  by case_decide.
Qed.



(** *** The pages of a stream *)

Section Pages.
Hypothesis page_size_pos : 0 < page_size.
Variable l0 : t.
Hypothesis l0_unset : _fd l0 = None.
Hypothesis l0_count : pageCount l0 = 0.
Hypothesis l0_paths :
  ∀ n, page_file (pageFolder l0) (pagesId l0) n ≠ logPath l0.

Local Abbreviation pf := (page_file (pageFolder l0) (pagesId l0)).
Local Abbreviation written := (written page_size l0).

Lemma create_written fs0 :
  (∀ n, Fs.files fs0 !! pf n = None) →
  written [] 0 0 (create (mkWorld l0 fs0 [])).2.
Proof using page_size_pos l0_unset l0_count l0_paths.
  intros Hfs. rewrite create_unfold by done. simpl_logger.
  split; [done|]. split; [done|]. eexists. split; [|split; [|split]].
  - by rewrite l0_count.
  - rewrite l0_count. by rewrite lookup_insert_eq.
  - intros j. rewrite l0_count. case_decide as Hj.
    + assert (j = 0) as -> by lia. rewrite lookup_insert_eq.
      rewrite lookup_insert_ne by (intros E; by apply (l0_paths 1)).
      rewrite Hfs. simpl_logger. f_equal. symmetry. apply chunk_beyond. cbn; lia.
    + rewrite lookup_insert_ne by (intros E%page_file_inj; lia).
      rewrite lookup_insert_ne by (intros E; by apply (l0_paths (S j))).
      apply Hfs.
  - done.
Qed.

Lemma write_written line ls q r w :
  written ls q r w →
  ∃ w', write line w = (Ok tt, w') ∧
        written (ls ++ [line])
                (if decide (page_size ≤ S r) then S q else q)
                (if decide (page_size ≤ S r) then 0 else S r) w'.
Proof using page_size_pos.
  clear l0_unset l0_count l0_paths.
  intros (Hlen & Hr & fd & Hself & Hfd & Hfiles & Hem).
  assert (_fd (self w) = Some fd) as Efd by (by rewrite Hself).
  rewrite (write_open line w fd _ Efd Hfd). cbn zeta.
  rewrite Hself. simpl_logger. rewrite (Hfiles q), (decide_True (P := q ≤ q)) by lia.
  simpl_logger. destruct (decide (page_size ≤ S r)) as [Hrot|Hrot].
  - assert (S r = page_size) as HP by lia.
    rewrite newPage_unfold. erewrite endPage_open; [|done|exact Hfd].
    eexists. split; [done|]. simpl_logger.
    split; [rewrite length_app; cbn; lia|]. split; [done|].
    eexists. split; [done|]. split; [by rewrite lookup_insert_eq|]. split.
    + intros j. destruct (decide (j = S q)) as [->|Hj1].
      * rewrite lookup_insert_eq, decide_True by lia.
        rewrite lookup_insert_ne by (intros E%page_file_inj; lia).
        rewrite Hfiles, decide_False by lia. cbn.
        rewrite chunk_beyond; [done|]. rewrite length_app. cbn. lia.
      * rewrite lookup_insert_ne by (intros E%page_file_inj; lia).
        destruct (decide (j = q)) as [->|Hj2].
        { rewrite lookup_insert_eq, decide_True by lia.
          rewrite chunk_app_last; [done|lia|lia]. }
        rewrite lookup_insert_ne by (intros E%page_file_inj; lia).
        rewrite Hfiles. destruct (decide (j ≤ q)) as [Hj|Hj].
        { rewrite decide_True by lia. rewrite chunk_app_before; [done|nia]. }
        by rewrite decide_False by lia.
    + rewrite Hem. rewrite seq_S, fmap_app. done.
  - eexists. split; [done|].
    split; [rewrite length_app; cbn; lia|]. split; [lia|].
    exists fd. split; [done|]. split; [done|]. split; [|done].
    intros j. simpl_logger. destruct (decide (j = q)) as [->|Hj2].
    { rewrite lookup_insert_eq, decide_True by lia.
      rewrite chunk_app_last; [done|lia|lia]. }
    rewrite lookup_insert_ne by (intros E%page_file_inj; lia).
    rewrite Hfiles. destruct (decide (j ≤ q)) as [Hj|Hj]; [|done].
    rewrite chunk_app_before; [done|nia].
Qed.

Lemma write_all_written lines ls q r w :
  written ls q r w →
  ∃ q' r' w', write_all lines w = (Ok tt, w') ∧ written (ls ++ lines) q' r' w'.
Proof using page_size_pos.
  revert ls q r w. induction lines as [|line lines IH]; intros ls q r w Hw.
  - exists q, r, w. by rewrite app_nil_r.
  - destruct (write_written line _ _ _ _ Hw) as (w1 & E1 & H1).
    destruct (IH _ _ _ _ H1) as (q' & r' & w2 & E2 & H2).
    exists q', r', w2. split.
    + unfold PagingLogger.write_all in *. cbn. unfold bind. by rewrite E1.
    + by rewrite <- (assoc_L (++)) in H2.
Qed.

Lemma written_div_mod ls q r w :
  written ls q r w → q = length ls / page_size ∧ r = length ls `mod` page_size.
Proof using page_size_pos.
  clear l0_unset l0_count l0_paths.
  intros (Hlen & Hr & _). split.
  - apply (Nat.div_unique _ _ _ r); lia.
  - apply (Nat.mod_unique _ _ q); lia.
Qed.

(** What a stream leaves behind: one notification per page, numbered
    from 1 without a gap, up to the quotient of the number of lines by
    the page size plus one; page [j + 1] holds the [j]-th run of lines. *)
Lemma session_written fs0 lines :
  (∀ n, Fs.files fs0 !! pf n = None) → lines ≠ [] →
  ∃ w', session lines (mkWorld l0 fs0 []) = (Ok tt, w') ∧
        emitted w' = page_info l0 <$> seq 1 (S (length lines / page_size)) ∧
        ∀ j, j ≤ length lines / page_size →
             Fs.files (fs w') !! pf (S j) = Some (chunk page_size j lines).
Proof using page_size_pos l0_unset l0_count l0_paths.
  intros Hfs Hne.
  pose proof (create_written fs0 Hfs) as H0.
  destruct (write_all_written lines _ _ _ _ H0) as (q & r & w1 & E1 & H1).
  cbn in H1. destruct (written_div_mod _ _ _ _ H1) as [-> ->].
  destruct H1 as (Hlen & Hr & fd & Hself & Hfd & Hfiles & Hem).
  assert (write_all lines (mkWorld l0 fs0 []) = (Ok tt, w1)) as E0.
  { destruct lines as [|line lines]; [done|].
    unfold PagingLogger.write_all in *. cbn in *. unfold bind in *.
    by rewrite write_unset. }
  unfold PagingLogger.session, bind. rewrite E0.
  unfold PagingLogger.end_. erewrite endPage_open; [|by rewrite Hself|exact Hfd].
  eexists. split; [done|]. simpl_logger. split.
  - rewrite Hem, Hself. simpl_logger. by rewrite (seq_S (length lines / _)), fmap_app.
  - intros j Hj. by rewrite Hfiles, decide_True.
Qed.

End Pages.

End PagingLoggerFacts.

(** The pages of the stream of a logger just constructed, on a disk
    that holds none of its page files: the notifications carry the
    numbers from 1 to the quotient of the number of lines by the page
    size plus one, and the page closed by [end()] holds the remainder
    of that division, the pages before it a full page each. *)
Lemma fresh_session_pages (P : nat) stringify logFolder md id now pid fs0
    (lines : list string) :
  0 < P → lines ≠ [] →
  (∀ n, Fs.files fs0 !!
          PagingLogger.page_file (Fs.join logFolder "pages") id n = None) →
  let w := PagingLoggerSpec.fresh_world logFolder md id now pid fs0 in
  let q := length lines / P in
  ∃ w', PagingLogger.session P stringify lines w = (Ok tt, w') ∧
        PagingLogger.closed_pages w' =
          (λ j, (j, Some (if decide (j ≤ q) then P else length lines `mod` P)))
            <$> seq 1 (S q).
Proof.
  intros HP Hne Hfs w q.
  destruct (session_written P stringify HP
              (PagingLogger.new logFolder md id now pid) eq_refl eq_refl
              (page_file_not_log logFolder md id now pid) fs0 lines Hfs Hne)
    as (w' & E & Hem & Hfiles).
  exists w'. split; [exact E|].
  unfold PagingLogger.closed_pages. rewrite Hem, <- list_fmap_compose.
  apply list_fmap_ext. intros i j [-> Hi]%lookup_seq.
  unfold compose, PagingLogger.page_lines, PagingLoggerSpec.page_info.
  cbn [pageNumber pagePath mbind option_bind]. f_equal.
  change (1 + i) with (S i).
  change (Fs.join logFolder "pages") with
    (PagingLogger.pageFolder (PagingLogger.new logFolder md id now pid)) in *.
  rewrite Hfiles by (fold q; lia). cbn [fmap option_fmap option_map]. f_equal.
  pose proof (Nat.div_mod_eq (length lines) P) as Hdm. fold q in Hdm.
  pose proof (Nat.mod_upper_bound (length lines) P ltac:(lia)) as Hr.
  case_decide.
  - apply chunk_length_full. nia.
  - assert (i = q) as -> by lia. rewrite chunk_length_last; nia.
Qed.

(** Where the count of the specification is met and where it is not:
    the stream closes as many pages as the quotient rounded up exactly
    when the number of lines is not a multiple of the page size. *)
Lemma pages_match_ceiling (P N : nat) :
  0 < P → 0 < N → (S (N / P) = ceil_div N P ↔ N `mod` P ≠ 0).
Proof.
  intros HP HN. unfold ceil_div.
  pose proof (Nat.div_mod_eq N P) as Hdm.
  pose proof (Nat.mod_upper_bound N P ltac:(lia)) as Hr.
  destruct (decide (N `mod` P = 0)) as [E|E].
  - rewrite E in *. split; [|done]. intros Hq. exfalso.
    assert ((N + P - 1) / P = N / P) as Hc; [|lia].
    symmetry. apply (Nat.div_unique _ _ _ (P - 1)); lia.
  - split; [done|]. intros _.
    apply (Nat.div_unique _ _ _ (N `mod` P - 1)); lia.
Qed.

(** The scenario of the specification: sixty lines make three pages
    of 25, 25 and 10 lines, numbered 1, 2, 3. *)
Example sixty_lines_three_pages (stringify : ILogMetadata → string) :
  let w := PagingLoggerSpec.fresh_world "/work/_logs"
             (mkMetadata "job" "record" None None) "id" "2015-01-01" 1 Fs.empty in
  PagingLogger.closed_pages
    (PagingLogger.session PAGE_SIZE stringify (replicate 60 "line") w).2
  = [(1, Some 25); (2, Some 25); (3, Some 10)].
Proof. by vm_compute. Qed.

(** C1.  Twenty-five lines with the page size of the source, then
    [end()]: the first page is closed full when the twenty-fifth line
    is written and a second page is opened at once; [end()] closes that
    second page, which holds no line, and announces it as page 2. *)
Theorem full_page_is_followed_by_an_empty_page (stringify : ILogMetadata → string) :
  let w := PagingLoggerSpec.fresh_world "/work/_logs"
             (mkMetadata "job" "record" None None) "id" "2015-01-01" 1 Fs.empty in
  let w' := (PagingLogger.session PAGE_SIZE stringify (replicate 25 "line") w).2 in
  PagingLogger.closed_pages w' = [(1, Some 25); (2, Some 0)] ∧
  pageNumber <$> PagingLogger.emitted w' = [1; 2] ∧
  ceil_div 25 PAGE_SIZE = 1 ∧
  length (PagingLogger.emitted w') ≠ ceil_div 25 PAGE_SIZE.
Proof. by vm_compute. Qed.

(** C6.  [end()] on a logger that was never written to returns and
    changes nothing: the disk is as it was, with no metadata file and
    no page file added, and no notification is emitted. *)
Theorem end_without_write_is_noop (P : nat) (stringify : ILogMetadata → string)
    (logFolder : string) (md : ILogMetadata) (id now : string) (pid : nat)
    (fs0 : Fs.t) :
  let w := PagingLoggerSpec.fresh_world logFolder md id now pid fs0 in
  PagingLogger.end_ w = (Ok tt, w) ∧
  PagingLogger.session P stringify [] w = (Ok tt, w) ∧
  PagingLogger.fs (PagingLogger.session P stringify [] w).2 = fs0 ∧
  PagingLogger.emitted (PagingLogger.session P stringify [] w).2 = [].
Proof. done. Qed.

(** *** The closing branch *)

Section PagingLoggerBranchFacts.
Import PagingLogger PagingLoggerSpec PagingLoggerBranch.
Variable page_size : nat.
Variable stringify : ILogMetadata → string.

Lemma endPage_branch w fd :
  _fd (self w) = Some fd → endPage w = closing_branch fd w.
Proof. intros E. unfold endPage, bind at 1, this. by rewrite E. Qed.

(** [write] is its statements before the test, then the test. *)
Lemma write_split line w :
  write page_size stringify line w =
  (write_before_test stringify line ;;
   do l <- this;
   if decide (page_size ≤ lineCount l) then newPage else ret tt) w.
Proof.
  unfold write, write_before_test, bind, this.
  destruct ((if _fd (self w) is None then create stringify else ret tt) w)
    as [[u|e] w2]; [|done].
  by destruct (match _fd (self w2) with
               | Some fd => fs_writeSync fd line
               | None => throw (TypeError "fd must be a file descriptor")
               end w2) as [[u'|e] w3].
Qed.

(** After the statements before the test the descriptor field is set. *)
Lemma write_before_test_fd line w w' :
  write_before_test stringify line w = (Ok tt, w') → is_Some (_fd (self w')).
Proof.
  unfold write_before_test, bind, this.
  destruct ((if _fd (self w) is None then create stringify else ret tt) w)
    as [[u|e] w2]; [|done].
  destruct (_fd (self w2)) as [fd|] eqn:E; [|done].
  destruct (fs_writeSync fd line w2) as [[u'|e] w3] eqn:Ew; [|done].
  intros [= <-]. cbn. unfold fs_writeSync in Ew.
  destruct (Fs.writeSync fd line (fs w2)) as [r fs']. injection Ew as _ <-.
  cbn. by rewrite E.
Qed.

(** A write that gets into the branch runs it where the statements
    before the test have left the logger. *)
Lemma write_enters_run line w :
  write_enters_branch page_size stringify line w = true →
  ∃ w' fd,
    write_before_test stringify line w = (Ok tt, w') ∧
    _fd (self w') = Some fd ∧
    write page_size stringify line w =
      match closing_branch fd w' with
      | (Ok _, w1) => (Ok tt, opened w1)
      | (Throw e, w1) => (Throw e, w1)
      end.
Proof.
  unfold write_enters_branch. intros Hin. rewrite write_split. unfold bind at 1.
  destruct (write_before_test stringify line w) as [[[]|e] w'] eqn:E; [|done].
  apply bool_decide_eq_true in Hin.
  destruct (write_before_test_fd line w w' E) as [fd Efd].
  exists w', fd. split_and!; [done|done|].
  unfold bind, this. rewrite decide_True by done.
  by rewrite newPage_unfold, (endPage_branch w' fd).
Qed.





End PagingLoggerBranchFacts.



(** ** The diagnostic context *)

Section ContextFacts.
Import Context ContextSpec.
Context `{Platform}.

Lemma bind_ok {S A B} (m : M S A) (k : A → M S B) s a s' :
  m s = (Ok a, s') → bind m k s = k a s'.
Proof. intros E. unfold bind. by rewrite E. Qed.

Lemma advance_advance n1 n2 es1 es2 w :
  advance n2 es2 (advance n1 es1 w) = advance (n1 + n2) (es1 ++ es2) w.
Proof. unfold advance. cbn. f_equal; [lia|by rewrite (assoc_L (++))]. Qed.

Lemma advance_0_nil w : advance 0 [] w = w.
Proof. unfold advance. destruct w. cbn. f_equal. apply app_nil_r. Qed.

(** The loop over the writers that hands out one line. *)
Lemma deliver_loop level line (o : nat) ws w :
  sequence_ (imap (λ i wl,
     if decide (level_num level ≤ level_num wl)%Z then
       match level with
       | Error => log (Writer_writeError (o + i) line)
       | _ => log (Writer_write (o + i) line)
       end
     else ret tt) ws) w =
  (Ok tt, advance 0 (mjoin (imap (λ i wl,
     if accepts wl level then [delivery_event level (o + i) line] else []) ws)) w).
Proof.
  revert o w. induction ws as [|wl ws IH]; intros o w.
  - cbn. by rewrite advance_0_nil.
  - rewrite !imap_cons. cbn [sequence_ mjoin].
    rewrite (imap_ext _ (λ i wl,
      if decide (level_num level ≤ level_num wl)%Z then
        match level with
        | Error => log (Writer_writeError (S o + i) line)
        | _ => log (Writer_write (S o + i) line)
        end
      else ret tt)) by (intros; cbn; by rewrite Nat.add_succ_r).
    rewrite (imap_ext (_ ∘ S) (λ i wl,
      if accepts wl level then [delivery_event level (S o + i) line] else []))
      by (intros; cbn; by rewrite Nat.add_succ_r).
    destruct (decide (level_num level ≤ level_num wl)%Z) as [Ha|Ha];
      unfold accepts at 1;
      [rewrite bool_decide_true by done|rewrite bool_decide_false by done].
    + cbv beta iota.
      assert (match level with
              | Error => log (Writer_writeError (o + 0) line)
              | _ => log (Writer_write (o + 0) line)
              end w = (Ok tt, advance 0 [delivery_event level (o + 0) line] w))
        as Hhead by (unfold delivery_event; by destruct level).
      by rewrite (bind_ok _ _ _ _ _ Hhead), IH, advance_advance.
    + cbv beta iota. by rewrite (bind_ok _ _ w tt w), IH.
Qed.

Lemma write_line_events level tag raw w :
  write_line level tag raw w =
  (Ok tt, advance 1 (line_events level tag (writers (self w))
                                 (clock (reads w)) raw) w).
Proof.
  unfold write_line, forEach_writer, new_Date.
  unfold bind at 1 2 3. unfold this at 1. unfold log at 1. unfold modify.
  cbn [self heap reads trace].
  etrans; [apply (deliver_loop level _ 0)|].
  unfold advance, line_events. cbn [self heap reads trace].
  by rewrite <- (assoc_L (++)).
Qed.

Lemma write_lines_events level tag raws w :
  sequence_ (write_line level tag <$> raws) w =
  (Ok tt, advance (length raws)
            (lines_events level tag (writers (self w)) (reads w) raws) w).
Proof.
  revert w. induction raws as [|raw raws IH]; intros w.
  - cbn. by rewrite advance_0_nil.
  - cbn [fmap list_fmap sequence_]. erewrite bind_ok by apply write_line_events.
    rewrite IH, advance_advance. f_equal. f_equal.
    unfold lines_events. rewrite imap_cons.
    cbn [mjoin list_join self reads advance]. rewrite Nat.add_0_r.
    f_equal. f_equal. apply imap_ext.
    intros k raw' _. cbn. do 2 f_equal. lia.
Qed.

(** The calls writer [i] receives from one line, and from a message. *)
Lemma received_app i tr1 tr2 :
  received i (tr1 ++ tr2) = received i tr1 ++ received i tr2.
Proof. apply omap_app. Qed.

Lemma received_deliveries level line i (o : nat) ws :
  received i (mjoin (imap (λ j wl,
     if accepts wl level then [delivery_event level (o + j) line] else []) ws)) =
  if decide (o ≤ i) then
    match ws !! (i - o) with
    | Some wl => if accepts wl level then [delivery level line] else []
    | None => []
    end
  else [].
Proof.
  revert o. induction ws as [|wl ws IH]; intros o.
  - cbn. by case_decide.
  - rewrite imap_cons. cbn [mjoin list_join]. rewrite received_app.
    rewrite (imap_ext (_ ∘ S) (λ j wl,
      if accepts wl level then [delivery_event level (S o + j) line] else []))
      by (intros; cbn; by rewrite Nat.add_succ_r).
    rewrite IH, Nat.add_0_r.
    assert (received i (if accepts wl level
                        then [delivery_event level o line] else []) =
            if decide (i = o) then
              if accepts wl level then [delivery level line] else []
            else []) as ->.
    { destruct (accepts wl level); [|by case_decide].
      unfold received, delivery_event, delivery. destruct level; cbn;
        by case_decide. }
    destruct (decide (i = o)) as [->|Hne].
    + rewrite (decide_False (P := S o ≤ o)), (decide_True (P := o ≤ o)),
        Nat.sub_diag, app_nil_r by lia. done.
    + destruct (decide (S o ≤ i)) as [Hle|Hle].
      * rewrite (decide_True (P := o ≤ i)) by lia.
        replace (i - o) with (S (i - S o)) by lia. done.
      * rewrite (decide_False (P := o ≤ i)) by lia. done.
Qed.

Lemma received_line_events level tag ws now raw i :
  received i (line_events level tag ws now raw) =
  match ws !! i with
  | Some wl => if accepts wl level
               then [delivery level (persisted_line tag now raw)] else []
  | None => []
  end.
Proof.
  unfold line_events. change (received i (?e :: ?l)) with (received i l).
  etrans; [apply (received_deliveries level _ i 0)|].
  rewrite decide_True, Nat.sub_0_r by lia. done.
Qed.

Lemma received_lines_events level tag ws r raws i :
  received i (lines_events level tag ws r raws) =
  match ws !! i with
  | Some wl =>
      if accepts wl level
      then delivery level <$>
             imap (λ k raw, persisted_line tag (clock (r + k)) raw) raws
      else []
  | None => []
  end.
Proof.
  unfold lines_events. revert r. induction raws as [|raw raws IH]; intros r.
  - cbn. destruct (ws !! i) as [wl|]; [by destruct (accepts wl level)|done].
  - rewrite !imap_cons. cbn [mjoin list_join]. rewrite received_app.
    rewrite received_line_events.
    rewrite (imap_ext (_ ∘ S) (λ k raw,
      line_events level tag ws (clock (S r + k)) raw))
      by (intros; cbn; by rewrite Nat.add_succ_r).
    rewrite (imap_ext ((λ k raw, persisted_line tag (clock (r + k)) raw) ∘ S)
      (λ k raw, persisted_line tag (clock (S r + k)) raw))
      by (intros; cbn; by rewrite Nat.add_succ_r).
    rewrite IH. destruct (ws !! i) as [wl|]; [|done].
    by destruct (accepts wl level).
Qed.

Lemma _write_string level tag s w :
  _write level tag (Js.JStr s) w =
  (Ok tt, advance (length (split EOL s))
            (lines_events level tag (writers (self w)) (reads w) (split EOL s)) w).
Proof. apply write_lines_events. Qed.

(** A leveled call with a text: it returns, and its events are those
    of the lines of the text. *)
Lemma exec_leveled_string c level tag s w :
  leveled c = Some (level, tag, Js.JStr s) →
  (exec c w).1 = Ok tt ∧
  writers (self (exec c w).2) = writers (self w) ∧
  trace (exec c w).2 =
    trace w ++ lines_events level tag (writers (self w)) (reads w) (split EOL s).
Proof.
  destruct c; intros [=]; subst; cbn [exec];
    unfold error, warning, info, verbose, status;
    rewrite ?(bind_ok (set_hasErrors true) _ w tt
                (mkWorld (mk true (writers (self w))) (heap w) (reads w) (trace w)))
      by done;
    rewrite _write_string; done.
Qed.

(** An argument that is not a text: the notice goes to the console,
    then the argument is serialised for the console, which raises when
    the argument is cyclic; the writers, the listeners and the clock
    are left alone. *)
Lemma _write_non_string level tag m w :
  Js.is_string m = false →
  let notice := Console_error
    [Js.JStr ("non-string write: " +:+ pretty (level_num level)); tag_value tag] in
  _write level tag m w =
  match JSON_stringify (heap w) m with
  | Ok text => (Ok tt, advance 0 [notice; Console_error [text]] w)
  | Throw e => (Throw e, advance 0 [notice] w)
  end.
Proof.
  intros Hm notice.
  assert (_write level tag m w =
          (log notice ;; do text <- stringify m; log (Console_error [text])) w)
    as -> by (by destruct m).
  unfold bind, log, modify, stringify. cbn [heap].
  destruct (JSON_stringify (heap w) m); unfold advance; cbn [self heap reads trace].
  - by rewrite <- (assoc_L (++)).
  - done.
Qed.

(** What does hold for every argument that is not a text: no writer
    is called and no ['message'] event is emitted, the notice is
    logged, and the call returns unless the argument is cyclic. *)
Lemma non_string_argument_discarded c level tag m w :
  leveled c = Some (level, tag, m) → Js.is_string m = false →
  let w' := (exec c w).2 in
  (∀ i, received i (trace w') = received i (trace w)) ∧
  (∃ rest, trace w' =
     trace w ++
     Console_error [Js.JStr ("non-string write: " +:+ pretty (level_num level));
                    tag_value tag] :: rest ∧
     Forall (λ e, ∃ args, e = Console_error args) rest) ∧
  (exec c w).1 =
    if Js.cyclic (heap w) m
    then Throw (TypeError "Converting circular structure to JSON")
    else Ok tt.
Proof.
  intros Hc Hm.
  assert (∃ w0, exec c w = _write level tag m w0 ∧ heap w0 = heap w ∧
                trace w0 = trace w) as (w0 & -> & Hh & Ht).
  { destruct c; try discriminate Hc; injection Hc as <- <- <-;
      first [by exists w
            |exists (mkWorld (mk true (writers (self w))) (heap w) (reads w) (trace w));
             done]. }
  rewrite _write_non_string by done. rewrite Hh. unfold JSON_stringify.
  destruct (Js.cyclic (heap w) m); cbn [fst snd];
    [|assert (∃ text, (match m with
                       | Js.JUndefined => Ok Js.JUndefined
                       | _ => Ok (Js.JStr (JSON_text (heap w) m))
                       end) = Ok text) as [text ->] by (destruct m; eauto)];
    cbn [fst snd advance trace]; rewrite Ht;
    (split; [|split; [|done]]).
  - intros i. rewrite received_app. cbn. by rewrite app_nil_r.
  - by exists [].
  - intros i. rewrite received_app. cbn. by rewrite app_nil_r.
  - eexists. split; [done|]. repeat constructor. by eexists.
Qed.

(** *** Preservation of a property of the world *)

Lemma keeps_bind {A B} P (m : M world A) (k : A → M world B) :
  keeps P m → (∀ a, keeps P (k a)) → keeps P (bind m k).
Proof.
  intros Hm Hk w Hw. unfold bind. specialize (Hm w Hw).
  destruct (m w) as [[a|e] w1]; [by apply Hk|done].
Qed.

Lemma keeps_sequence P (ms : list (M world unit)) :
  Forall (keeps P) ms → keeps P (sequence_ ms).
Proof.
  induction 1 as [|m ms Hm _ IH]; [by intros w|].
  cbn. by apply keeps_bind.
Qed.

Lemma keeps_forEach P (f : nat → DiagnosticLevel → M world unit) :
  (∀ i wl, keeps P (f i wl)) → keeps P (forEach_writer f).
Proof.
  intros Hf. apply keeps_bind; [by intros w|].
  intros l. apply keeps_sequence. apply Forall_forall.
  intros m (i & wl & -> & _)%elem_of_lookup_imap. apply Hf.
Qed.

(** A property of the fields of the context is kept by [_write]. *)
Lemma keeps_write (Q : t → Prop) level tag m :
  keeps (λ w, Q (self w)) (_write level tag m).
Proof.
  intros w Hw. destruct (Js.is_string m) eqn:Hm.
  - destruct m; try done. by rewrite _write_string.
  - rewrite _write_non_string by done.
    by destruct (JSON_stringify (heap w) m).
Qed.

Lemma keeps_exec c : keeps (λ w, hasErrors (self w) = true) (exec c).
Proof.
  destruct c; cbn [exec];
    unfold output, error, warning, info, verbose, status, heading, section, end_;
    repeat first
      [ apply (keeps_write (λ l, hasErrors l = true))
      | apply keeps_forEach; intros ??
      | apply keeps_bind; [|intros ?]
      | by intros w
      | case_decide ].
Qed.

Lemma exec_all_app cs1 cs2 w :
  exec_all (cs1 ++ cs2) w = exec_all cs2 (exec_all cs1 w).
Proof. apply foldl_app. Qed.

Lemma keeps_exec_all cs w :
  hasErrors (self w) = true → hasErrors (self (exec_all cs w)) = true.
Proof.
  revert w. induction cs as [|c cs IH]; intros w Hw; [done|].
  cbn. apply IH. by apply keeps_exec.
Qed.

Lemma error_sets_hasErrors m w : hasErrors (self (error m w).2) = true.
Proof.
  unfold error.
  rewrite (bind_ok (set_hasErrors true) _ w tt
             (mkWorld (mk true (writers (self w))) (heap w) (reads w) (trace w)))
    by done.
  by apply (keeps_write (λ l, hasErrors l = true)).
Qed.

(** [heading] and [section] run their body once for each writer that
    passes the Status test. *)
Lemma forEach_status_writers (body : M world unit) w :
  forEach_writer (λ _ wl,
    if decide (level_num Status ≤ level_num wl)%Z then body else ret tt) w =
  sequence_ (replicate (status_writers (writers (self w))) body) w.
Proof.
  change (forEach_writer _ w) with
    (sequence_ (imap (const (λ wl,
       if decide (level_num Status ≤ level_num wl)%Z then body else ret tt))
       (writers (self w))) w).
  rewrite imap_const. unfold status_writers. generalize (writers (self w)). intros ws. revert w.
  induction ws as [|wl ws IH]; intros w; [done|].
  cbn [fmap list_fmap sequence_]. destruct (decide (level_num Status ≤ level_num wl)%Z).
  - rewrite filter_cons_True by done. cbn [length replicate sequence_].
    unfold bind. destruct (body w) as [[[]|e] w1]; [apply IH|done].
  - rewrite filter_cons_False by done. apply IH.
Qed.

Lemma heading_unfold m w :
  heading m w =
  sequence_ (replicate (status_writers (writers (self w)))
               (_write Info None (Js.JStr (heading_text m)))) w.
Proof. apply forEach_status_writers. Qed.

Lemma section_unfold m w :
  section m w =
  sequence_ (replicate (status_writers (writers (self w)))
               (_write Info None (Js.JStr (section_text m)))) w.
Proof. apply forEach_status_writers. Qed.

(** With the writers of an agent context, a console at Status and a
    file at Info, a text sent through [forEach_writer] as [heading]
    and [section] do reaches the file twice. *)
Lemma twice_to_the_file text hp :
  let w := mkWorld (new [Status; Info]) hp 0 [] in
  let body := _write Info None (Js.JStr text) in
  let n := length (split EOL text) in
  sequence_ (replicate (status_writers [Status; Info]) body) w = (body ;; body) w ∧
  received 1 (trace (body w).2) = Write <$> persisted_lines None 0 text ∧
  received 1 (trace ((body ;; body) w).2) =
    (Write <$> persisted_lines None 0 text) ++
    (Write <$> persisted_lines None n text).
Proof.
  intros w body n.
  assert (body w = (Ok tt, advance n (lines_events Info None [Status; Info] 0
                                       (split EOL text)) w)) as E1
    by apply _write_string.
  split; [|split].
  - change (status_writers [Status; Info]) with 2. cbn [replicate sequence_].
    unfold bind. rewrite E1. cbv beta iota.
    destruct (body (advance _ _ _)) as [[[]|?] ?]; reflexivity.
  - rewrite E1. cbn [snd advance trace w app]. by rewrite received_lines_events.
  - unfold bind. rewrite E1. subst body. rewrite _write_string.
    cbn [snd advance trace self writers reads w new app].
    rewrite received_app, !received_lines_events. cbn [lookup list_lookup].
    change (accepts Info Info) with true. cbv beta iota.
    by rewrite Nat.add_0_r.
Qed.

End ContextFacts.

(** C4.  A leveled call with a text hands its persisted lines to a
    registered writer exactly when the writer's threshold is
    numerically at least the level of the call, through [writeError]
    for the Error level and through [write] otherwise; a message has at
    least one line.  So a writer at Info receives nothing from a
    Verbose message, and a writer at Verbose receives every message. *)
Theorem leveled_message_delivery `{Platform} (c : Context.call)
    (level : DiagnosticLevel) (tag : option string) (s : string)
    (w : Context.world) (i : nat) (wl : DiagnosticLevel) :
  ContextSpec.leveled c = Some (level, tag, Js.JStr s) →
  Context.writers (Context.self w) !! i = Some wl →
  let w' := (Context.exec c w).2 in
  let lines := ContextSpec.persisted_lines tag (Context.reads w) s in
  let got := ContextSpec.delivery level <$> lines in
  lines ≠ [] ∧
  Context.received i (Context.trace w') =
    Context.received i (Context.trace w) ++
    (if decide (level_num wl >= level_num level)%Z then got else []) ∧
  (wl = Info → level = Verbose →
   Context.received i (Context.trace w') = Context.received i (Context.trace w)) ∧
  (wl = Verbose →
   Context.received i (Context.trace w') =
     Context.received i (Context.trace w) ++ got).
Proof.
  intros Hc Hi w' lines got.
  destruct (exec_leveled_string c level tag s w Hc) as (_ & _ & Htr).
  assert (Context.received i (Context.trace w') =
          Context.received i (Context.trace w) ++
          (if decide (level_num wl >= level_num level)%Z then got else [])) as Hrec.
  { subst w'. rewrite Htr, received_app, received_lines_events, Hi.
    unfold ContextSpec.accepts, bool_decide.
    destruct (decide_rel _ _ _), (decide _); first [done|lia]. }
  split; [|split; [done|split]].
  - subst lines. unfold ContextSpec.persisted_lines.
    intros E%(f_equal length). rewrite length_imap in E.
    apply length_zero_iff_nil in E. by apply split_not_nil in E; [|apply EOL_not_empty].
  - intros -> ->. rewrite Hrec. cbn. by rewrite app_nil_r.
  - intros ->. rewrite Hrec. rewrite decide_True; [done|]. destruct level; cbn; lia.
Qed.

(** C5.  Once [error()] has been called, [hasErrors] is true and stays
    true whatever is called afterwards, whether or not those calls
    return normally. *)
Theorem hasErrors_is_sticky `{Platform} (before after : list Context.call)
    (message : Js.any) (w : Context.world) :
  Context.hasErrors (Context.self
    (Context.exec_all (before ++ Context.Call_error message :: after) w)) = true.
Proof.
  rewrite exec_all_app. cbn. apply keeps_exec_all. apply error_sets_hasErrors.
Qed.

(** C7.  With two writers that pass the Status test, the console at
    Status and the file at Info of an agent context, [heading] and
    [section] send the wrapped message through the leveled path twice:
    the file receives every line of the banner two times, where one
    passage through the path gives it each line once. *)
Theorem heading_and_section_repeat_per_writer `{Platform} (m : string)
    (hp : Js.heap) :
  let w := Context.mkWorld (Context.new [Status; Info]) hp 0 [] in
  let once text := Context._write Info None (Js.JStr text) in
  let lines r text := Context.Write <$> ContextSpec.persisted_lines None r text in
  let n text := length (split EOL text) in
  (∀ text, Context.received 1 (Context.trace (once text w).2) = lines 0 text
           ∧ lines 0 text ≠ []) ∧
  Context.heading m w = (once (Context.heading_text m) ;; once (Context.heading_text m)) w ∧
  Context.received 1 (Context.trace (Context.heading m w).2) =
    lines 0 (Context.heading_text m) ++
    lines (n (Context.heading_text m)) (Context.heading_text m) ∧
  Context.section m w = (once (Context.section_text m) ;; once (Context.section_text m)) w ∧
  Context.received 1 (Context.trace (Context.section m w).2) =
    lines 0 (Context.section_text m) ++
    lines (n (Context.section_text m)) (Context.section_text m).
Proof.
  intros w once lines n. split; [|split; [|split; [|split]]].
  - intros text. destruct (twice_to_the_file text hp) as (_ & E & _).
    split; [exact E|]. unfold lines, ContextSpec.persisted_lines.
    intros E0%(f_equal length). rewrite length_fmap, length_imap in E0.
    apply length_zero_iff_nil in E0.
    by apply split_not_nil in E0; [|apply EOL_not_empty].
  - rewrite heading_unfold. apply twice_to_the_file.
  - rewrite heading_unfold.
    change (Context.writers (Context.self w)) with [Status; Info]. subst w.
    destruct (twice_to_the_file (Context.heading_text m) hp) as (-> & _ & E).
    exact E.
  - rewrite section_unfold. apply twice_to_the_file.
  - rewrite section_unfold.
    change (Context.writers (Context.self w)) with [Status; Info]. subst w.
    destruct (twice_to_the_file (Context.section_text m) hp) as (-> & _ & E).
    exact E.
Qed.

(** C8.  A leveled call whose argument is an object that refers to
    itself: the notice is logged and no writer is called, but the
    serialisation of the argument for the console raises, and the
    exception reaches the caller. *)
Theorem cyclic_argument_raises `{Platform} (ws : list DiagnosticLevel) :
  let hp : Js.heap := {[1%positive := [("self", Js.JObj 1)]]} in
  let w := Context.mkWorld (Context.new ws) hp 0 [] in
  let raised := TypeError "Converting circular structure to JSON" in
  Js.is_string (Js.JObj 1) = false ∧
  (Context.info (Js.JObj 1) w).1 = Throw raised ∧
  (Context.error (Js.JObj 1) w).1 = Throw raised ∧
  Context.trace (Context.info (Js.JObj 1) w).2 =
    [Context.Console_error [Js.JStr "non-string write: 4"; Js.JNull]].
Proof.
  intros hp w raised.
  assert (JSON_stringify hp (Js.JObj 1) = Throw raised) as E by (by vm_compute).
  split; [done|]. unfold Context.info, Context.error.
  rewrite (bind_ok (Context.set_hasErrors true) _ w tt
             (Context.mkWorld (Context.mk true ws) hp 0 [])) by done.
  rewrite !_write_non_string by done. cbn [Context.heap w]. rewrite E. done.
Qed.

(** ** Completion of a job *)

(** The renewal period declared by the source is one minute. *)
Remark LOCK_RENEWAL_MS_is_one_minute : (LOCK_RENEWAL_MS = 60 * 1000)%Z.
Proof. reflexivity. Qed.

Section JobContextFacts.
Import JobContext JobContextSpec.
Context `{Platform}.
Variable feedback : Channel.
Variable this : t.

Lemma setTaskResult_events id name r w :
  setTaskResult id name r w =
  mkWorld (S (reads w))
    (trace w ++ [Feedback (setCurrentOperation id ("Completed " +:+ name));
                 Feedback (setState id Completed);
                 Feedback (setFinishTime id (clock (reads w)));
                 Feedback (setResult id r)]).
Proof.
  unfold setTaskResult, call, log, new_Date. cbn [reads trace]. f_equal.
  by rewrite <- !(assoc_L (++)).
Qed.

(** The whole of [finishJob]: the events it adds, and its one use of
    the callback, in tail position. *)
Lemma finishJob_unfold r w :
  let derr := drain_error feedback this r w in
  let r' := if Js.truthy derr then Failed else r in
  let events :=
    completion this r (reads w) ++ [Feedback drain; Drained derr] ++
    (if Js.truthy derr then [Console_log "Failed to drain queue"] else []) ++
    [final_update this r' (S (reads w))] in
  let uerr := update_result feedback (trace w ++ events) in
  ∀ cb, finishJob feedback this r cb w =
        cb uerr (mkWorld (S (S (reads w))) (trace w ++ events ++ [Updated uerr])).
Proof.
  intros derr r' events uerr cb.
  unfold finishJob. rewrite setTaskResult_events.
  unfold feedback_drain, feedback_updateJobRequest, call, log, new_Date.
  cbn [reads trace].
  assert (drain_result feedback
            ((trace w ++ completion this r (reads w)) ++ [Feedback drain]) = derr)
    as Ed by (subst derr; unfold drain_error, at_drain; by rewrite (assoc_L (++))).
  unfold completion in Ed. rewrite Ed.
  subst uerr events r'. unfold final_update, completion.
  destruct (Js.truthy derr); cbn [reads trace app];
    rewrite <- !(assoc_L (++)); cbn [app]; reflexivity.
Qed.

Lemma finishJob_trace r w :
  let derr := drain_error feedback this r w in
  ∃ (uerr : Js.any) (w' : world),
    (∀ cb, finishJob feedback this r cb w = cb uerr w') ∧
    trace w' =
      trace w ++ completion this r (reads w) ++
      [Feedback drain; Drained derr] ++
      (if Js.truthy derr then [Console_log "Failed to drain queue"] else []) ++
      [final_update this (if Js.truthy derr then Failed else r) (S (reads w));
       Updated uerr].
Proof.
  intros derr. eexists _, _. split.
  - intros cb. apply finishJob_unfold.
  - cbn [trace]. rewrite <- !(assoc_L (++)). reflexivity.
Qed.

Lemma timeline_app tr1 tr2 :
  timeline (tr1 ++ tr2) = foldl apply_event (timeline tr1) tr2.
Proof. apply foldl_app. Qed.

End JobContextFacts.

(** C2.  [finishJob] ends in one call of its callback; before that it
    completes the job's record, drains the feedback channel, and only
    when the drain has completed sends the job request update, once,
    whose result is Failed when the drain reported an error and the
    result given otherwise. *)
Theorem finishJob_protocol `{Platform} (feedback : JobContext.Channel)
    (this : JobContext.t) (r : TaskResult) (w : JobContext.world) :
  let derr := JobContextSpec.drain_error feedback this r w in
  ∃ (uerr : Js.any) (w' : JobContext.world),
    (∀ cb, JobContext.finishJob feedback this r cb w = cb uerr w') ∧
    JobContext.trace w' =
      JobContext.trace w ++
      JobContextSpec.completion this r (JobContext.reads w) ++
      [JobContext.Feedback JobContext.drain; JobContext.Drained derr] ++
      (if Js.truthy derr
       then [JobContext.Console_log "Failed to drain queue"] else []) ++
      [JobContextSpec.final_update this
         (if Js.truthy derr then Failed else r) (S (JobContext.reads w));
       JobContext.Updated uerr].
Proof. apply finishJob_trace. Qed.

(** C9.  When the drain reports an error, Failed is carried by the job
    request update only: the result of the job's record is set once,
    to the result given, before the drain is called, and the record
    still holds it when the callback runs. *)
Theorem drain_failure_leaves_timeline_result `{Platform}
    (feedback : JobContext.Channel) (this : JobContext.t) (r : TaskResult)
    (w : JobContext.world)
    (Herr : Js.truthy (JobContextSpec.drain_error feedback this r w) = true) :
  ∃ (uerr : Js.any) (w' : JobContext.world),
    (∀ cb, JobContext.finishJob feedback this r cb w = cb uerr w') ∧
    JobContext.trace w' =
      JobContext.trace w ++
      JobContextSpec.completion this r (JobContext.reads w) ++
      [JobContext.Feedback JobContext.drain;
       JobContext.Drained (JobContextSpec.drain_error feedback this r w);
       JobContext.Console_log "Failed to drain queue";
       JobContextSpec.final_update this Failed (S (JobContext.reads w));
       JobContext.Updated uerr] ∧
    JobContext.result <$>
      (JobContext.timeline (JobContext.trace w') !! jobId (JobContext.job this))
    = Some (Some r).
Proof.
  destruct (finishJob_trace feedback this r w) as (uerr & w' & Hcb & Htr).
  rewrite Herr in Htr. cbn [app] in Htr.
  exists uerr, w'. split; [exact Hcb|]. split; [exact Htr|].
  rewrite Htr, timeline_app. unfold JobContextSpec.completion, JobContextSpec.final_update.
  cbn [foldl JobContext.apply_event JobContext.update app].
  rewrite lookup_insert_eq. done.
Qed.

(** ** Instances *)

(** The delivery theorem on the sample platform: a two-line warning
    to a writer at Warning. *)
Lemma leveled_message_delivery_witness :
  let c := Context.Call_warning (Js.JStr ("line one" +:+ line_feed +:+ "line two")) in
  let w := Context.mkWorld (Context.new [Warning; Error]) ∅ 0 [] in
  ContextSpec.leveled c =
    Some (Warning, Some "Warning",
          Js.JStr ("line one" +:+ line_feed +:+ "line two")) ∧
  Context.writers (Context.self w) !! 0 = Some Warning ∧
  Context.received 0 (Context.trace (@Context.exec sample_platform c w).2) =
    [Context.Write ("[Warning] 1420070400000: line one" +:+ line_feed);
     Context.Write ("[Warning] 1420070400001: line two" +:+ line_feed)].
Proof.
  intros c w. split; [reflexivity|]. split; [reflexivity|].
  destruct (@leveled_message_delivery sample_platform c Warning (Some "Warning")
              ("line one" +:+ line_feed +:+ "line two") w 0 Warning
              eq_refl eq_refl) as (_ & E & _).
  rewrite E. vm_compute. reflexivity.
Defined.

(** The timeline theorem on the sample platform: a job reported as
    succeeded whose drain fails. *)
Lemma drain_failure_leaves_timeline_result_witness :
  let feedback := JobContext.mkChannel
    (λ _, Js.JStr "upload failed") (λ _, Js.JNull) (λ _, Js.JNull) in
  let this := JobContext.mk (mkJob "job-1" "Build" 7 "token") 1 "agent" in
  let w := JobContext.mkWorld 0 [] in
  Js.truthy (@JobContextSpec.drain_error sample_platform feedback this Succeeded w)
    = true ∧
  ∃ uerr w',
    (∀ cb, @JobContext.finishJob sample_platform feedback this Succeeded cb w
           = cb uerr w') ∧
    JobContext.result <$> (JobContext.timeline (JobContext.trace w') !! "job-1")
    = Some (Some Succeeded).
Proof.
  intros feedback this w. split; [reflexivity|].
  destruct (@drain_failure_leaves_timeline_result sample_platform feedback this
              Succeeded w eq_refl) as (uerr & w' & Hcb & _ & Htl).
  exists uerr, w'. split; [exact Hcb|exact Htl].
Defined.

(** * Further properties *)

(** ** The paging logger: contents, metadata and descriptors *)

Lemma concat_chunks {A} (P k : nat) (l : list A) :
  mjoin ((λ j, chunk P j l) <$> seq 0 k) = take (k * P) l.
Proof.
  induction k as [|k IH]; [done|].
  rewrite seq_S, fmap_app, join_app, IH. cbn [fmap list_fmap mjoin list_join].
  rewrite app_nil_r. unfold chunk. rewrite take_take_drop. f_equal. lia.
Qed.

Section PagingLoggerStreams.
Import PagingLogger PagingLoggerSpec PagingLoggerMore.
Variable page_size : nat.
Variable stringify : ILogMetadata → string.
Variable l0 : t.
Hypothesis l0_unset : _fd l0 = None.
Hypothesis l0_paths :
  ∀ n, page_file (pageFolder l0) (pagesId l0) n ≠ logPath l0.

Local Abbreviation create := (create stringify).
Local Abbreviation write := (write page_size stringify).
Local Abbreviation write_all := (write_all page_size stringify).
Local Abbreviation session := (session page_size stringify).
Local Abbreviation pf := (page_file (pageFolder l0) (pagesId l0)).
Local Abbreviation data := (stringify (completed l0)).

Ltac simpl_stream :=
  unfold opened, Fs.writeFileSync;
  cbn [self fs emitted Fs.files Fs.open_fds metadata created pagesId logPath
       pageFolder pageFilePath pageCount lineCount _fd with_created
       with_lineCount with_fd with_pageFilePath with_pageCount with_metadata
       fst snd].

Lemma fresh_fd_unused (fds : gmap positive string) : fds !! fresh (dom fds) = None.
Proof. apply not_elem_of_dom, is_fresh. Qed.

Lemma create_streaming fs0 em :
  em = [] →
  streaming l0 (Fs.open_fds fs0) data (create (mkWorld l0 fs0 em)).2.
Proof using l0_unset l0_paths.
  intros ->. rewrite create_unfold by done. simpl_stream.
  exists (fresh (dom (Fs.open_fds fs0))), (S (pageCount l0)).
  simpl_stream. split_and!; try done.
  - apply fresh_fd_unused.
  - rewrite lookup_insert_ne by apply l0_paths. apply lookup_insert_eq.
Qed.

Lemma write_streaming fds0 line w :
  streaming l0 fds0 data w →
  ∃ w', write line w = (Ok tt, w') ∧ streaming l0 fds0 data w'.
Proof using l0_paths.
  clear l0_unset.
  intros (fd & n & Efd & Eid & Efolder & Emd & Hfd & Hfds & Hlog & Hem).
  assert (Fs.open_fds (fs w) !! fd = Some (pf n)) as Ho
    by (rewrite Hfds; apply lookup_insert_eq).
  rewrite (write_open _ _ line w fd _ Efd Ho). cbn zeta.
  case_decide.
  - rewrite newPage_unfold. erewrite endPage_open; [|exact Efd|exact Ho].
    eexists. split; [done|]. simpl_stream. rewrite Hfds, delete_insert_id by done.
    exists (fresh (dom fds0)), (S (pageCount (self w))).
    simpl_stream. rewrite Eid, Efolder, Emd. split_and!; try done.
    + apply fresh_fd_unused.
    + rewrite !lookup_insert_ne by apply l0_paths. done.
    + apply Forall_app. split; [done|]. by repeat constructor.
  - eexists. split; [done|]. exists fd, n. simpl_stream.
    split_and!; try done. rewrite lookup_insert_ne by apply l0_paths. done.
Qed.

Lemma write_all_streaming fds0 lines w :
  streaming l0 fds0 data w →
  ∃ w', write_all lines w = (Ok tt, w') ∧ streaming l0 fds0 data w'.
Proof using l0_paths.
  revert w. induction lines as [|line lines IH]; intros w Hw.
  - by exists w.
  - destruct (write_streaming fds0 line w Hw) as (w1 & E1 & H1).
    destruct (IH w1 H1) as (w2 & E2 & H2). exists w2. split; [|done].
    unfold PagingLogger.write_all in *. cbn. unfold bind. by rewrite E1.
Qed.

(** A stream with at least one line, up to its [end()]. *)
Lemma session_streaming fs0 lines :
  lines ≠ [] →
  ∃ w0 w', write_all lines (mkWorld l0 fs0 []) = (Ok tt, w0) ∧
           streaming l0 (Fs.open_fds fs0) data w0 ∧
           session lines (mkWorld l0 fs0 []) = (Ok tt, w') ∧
           Fs.open_fds (fs w') = Fs.open_fds fs0 ∧
           Fs.files (fs w') = Fs.files (fs w0) ∧
           Forall (λ info, logInfo info = completed l0) (emitted w').
Proof using l0_unset l0_paths.
  intros Hne.
  destruct (write_all_streaming (Fs.open_fds fs0) lines _
              (create_streaming fs0 [] eq_refl)) as (w0 & E0 & H0).
  assert (write_all lines (mkWorld l0 fs0 []) = (Ok tt, w0)) as E.
  { destruct lines as [|line lines]; [done|].
    unfold PagingLogger.write_all in *. cbn in *. unfold bind in *.
    by rewrite write_unset. }
  pose proof H0 as (fd & n & Efd & _ & _ & Emd & Hfd & Hfds & _ & Hem).
  exists w0. eexists. split; [exact E|]. split; [exact H0|].
  unfold PagingLogger.session, bind. rewrite E. unfold PagingLogger.end_.
  erewrite endPage_open;
    [|exact Efd|rewrite Hfds; apply lookup_insert_eq].
  split; [done|]. simpl_stream. split_and!.
  - by rewrite Hfds, delete_insert_id.
  - done.
  - apply Forall_app. split; [done|]. rewrite Emd. by repeat constructor.
Qed.

End PagingLoggerStreams.

(** The pages of a stream put end to end. *)
Lemma session_pages_concat (P : nat) stringify logFolder md id now pid
    fs0 (lines : list string) :
  0 < P → lines ≠ [] →
  (∀ n, Fs.files fs0 !!
          PagingLogger.page_file (Fs.join logFolder "pages") id n = None) →
  let w := PagingLoggerSpec.fresh_world logFolder md id now pid fs0 in
  ∃ w' pages,
    PagingLogger.session P stringify lines w = (Ok tt, w') ∧
    PagingLogger.page_lines w' <$> PagingLogger.emitted w' = Some <$> pages ∧
    mjoin pages = lines.
Proof.
  intros HP Hne Hfs w.
  destruct (session_written P stringify HP
              (PagingLogger.new logFolder md id now pid) eq_refl eq_refl
              (page_file_not_log logFolder md id now pid) fs0 lines Hfs Hne)
    as (w' & E & Hem & Hfiles).
  exists w', ((λ j, chunk P j lines) <$> seq 0 (S (length lines / P))).
  split; [exact E|]. split.
  - rewrite Hem, <- !list_fmap_compose, <- (fmap_S_seq 0), <- list_fmap_compose.
    apply list_fmap_ext. intros i j [-> Hi]%lookup_seq.
    unfold compose, PagingLogger.page_lines, PagingLoggerSpec.page_info.
    cbn [pagePath mbind option_bind].
    change (Fs.join logFolder "pages") with
      (PagingLogger.pageFolder (PagingLogger.new logFolder md id now pid)) in *.
    apply Hfiles. cbn in Hi. lia.
  - rewrite concat_chunks. apply take_ge.
    pose proof (Nat.div_mod_eq (length lines) P) as Hdm.
    pose proof (Nat.mod_upper_bound (length lines) P ltac:(lia)) as Hr. nia.
Qed.

(** X1.  The stream of a logger just constructed, on a disk that
    holds none of its page files, for any page size and any lines, at
    least one: the run ends without an exception, the pages are
    numbered from 1 to the quotient of the number of lines by the page
    size plus one, every page before the last holds a full page of
    lines and the page closed by [end()] holds the remainder of the
    division, which is no line at all when the page size divides the
    number of lines. *)
Theorem stream_pages_and_line_counts (P : nat) (stringify : ILogMetadata → string)
    (logFolder : string) (md : ILogMetadata) (id now : string) (pid : nat)
    (fs0 : Fs.t) (lines : list string) :
  0 < P → lines ≠ [] →
  (∀ n, Fs.files fs0 !!
          PagingLogger.page_file (Fs.join logFolder "pages") id n = None) →
  let w := PagingLoggerSpec.fresh_world logFolder md id now pid fs0 in
  let q := length lines / P in
  ∃ w', PagingLogger.session P stringify lines w = (Ok tt, w') ∧
        PagingLogger.closed_pages w' =
          (λ j, (j, Some (if decide (j ≤ q) then P else length lines `mod` P)))
            <$> seq 1 (S q).
Proof. apply fresh_session_pages. Qed.

(** X2.  The closed pages, read in the order of their notifications
    and put end to end, are the lines written, in the order they were
    written: no line is lost, repeated or moved. *)
Theorem pages_hold_the_lines_in_order (P : nat) stringify logFolder md id now pid
    fs0 (lines : list string) :
  0 < P → lines ≠ [] →
  (∀ n, Fs.files fs0 !!
          PagingLogger.page_file (Fs.join logFolder "pages") id n = None) →
  let w := PagingLoggerSpec.fresh_world logFolder md id now pid fs0 in
  ∃ w' pages,
    PagingLogger.session P stringify lines w = (Ok tt, w') ∧
    PagingLogger.page_lines w' <$> PagingLogger.emitted w' = Some <$> pages ∧
    mjoin pages = lines.
Proof. apply session_pages_concat. Qed.

(** X3.  As soon as a stream has a line, its metadata file holds the
    serialised metadata, completed with the stream's identifier and the
    path of that very file, and nothing else; every notification
    carries this completed metadata.  A file that was at that path
    before is replaced. *)
Theorem metadata_file_written_once (P : nat) stringify logFolder md id now pid
    fs0 (lines : list string) :
  lines ≠ [] →
  let l0 := PagingLogger.new logFolder md id now pid in
  let w := PagingLoggerSpec.fresh_world logFolder md id now pid fs0 in
  let md' := mkMetadata (jobInfo md) (recordId md) (Some id)
                        (Some (PagingLogger.logPath l0)) in
  ∃ w', PagingLogger.session P stringify lines w = (Ok tt, w') ∧
        Fs.files (PagingLogger.fs w') !! PagingLogger.logPath l0
          = Some [stringify md'] ∧
        Forall (λ info, logInfo info = md') (PagingLogger.emitted w') ∧
        PagingLogger.emitted w' ≠ [].
Proof.
  intros Hne l0 w md'.
  destruct (session_streaming P stringify l0 eq_refl
              (page_file_not_log logFolder md id now pid) fs0 lines Hne)
    as (w0 & w' & E0 & (fd & n & Efd & _ & _ & _ & _ & Hfds & Hlog & _)
        & E & _ & Hfiles & Hem).
  exists w'. split; [exact E|]. split; [by rewrite Hfiles|]. split; [exact Hem|].
  unfold PagingLogger.session, bind in E. rewrite E0 in E.
  unfold PagingLogger.end_ in E.
  erewrite endPage_open in E; [|exact Efd|rewrite Hfds; apply lookup_insert_eq].
  injection E as <-. cbn. by destruct (PagingLogger.emitted w0).
Qed.

(** X4.  A stream leaves no descriptor open: whatever the page size,
    the lines and the disk, the stream runs to the end of [end()]
    without raising, and the descriptors open afterwards are those
    that were open before; while it is being written the logger holds
    exactly one descriptor more, on a page file of its own. *)
Theorem no_descriptor_left_open (P : nat) stringify logFolder md id now pid
    fs0 (lines : list string) :
  let l0 := PagingLogger.new logFolder md id now pid in
  let w := PagingLoggerSpec.fresh_world logFolder md id now pid fs0 in
  ∃ w0 w',
    PagingLogger.write_all P stringify lines w = (Ok tt, w0) ∧
    PagingLogger.session P stringify lines w = (Ok tt, w') ∧
    Fs.open_fds (PagingLogger.fs w') = Fs.open_fds fs0 ∧
    (lines ≠ [] →
     ∃ fd n, PagingLogger._fd (PagingLogger.self w0) = Some fd ∧
             Fs.open_fds fs0 !! fd = None ∧
             Fs.open_fds (PagingLogger.fs w0) =
               <[fd := PagingLogger.page_file (PagingLogger.pageFolder l0) id n]>
                 (Fs.open_fds fs0)).
Proof.
  intros l0 w. destruct lines as [|line lines].
  - exists w, w. split_and!; done.
  - destruct (session_streaming P stringify l0 eq_refl
                (page_file_not_log logFolder md id now pid) fs0 (line :: lines)
                ltac:(done))
      as (w0 & w' & E0 & (fd & n & Efd & _ & _ & _ & Hfd & Hfds & _) & E & Hfin & _).
    exists w0, w'. split_and!; try done. intros _. by exists fd, n.
Qed.

(** X5.  While a stream is being written, before any [end()]: after
    [N] lines the pages announced are exactly the [N / P] full ones,
    in order, the open page has number [N / P + 1], and the line
    counter, which is the number of lines in the open page's file, is
    [N mod P]; it never reaches the page size. *)
Theorem pages_announced_while_writing (P : nat) stringify logFolder md id now pid
    fs0 (lines : list string) :
  0 < P → lines ≠ [] →
  (∀ n, Fs.files fs0 !!
          PagingLogger.page_file (Fs.join logFolder "pages") id n = None) →
  let w := PagingLoggerSpec.fresh_world logFolder md id now pid fs0 in
  let N := length lines in
  ∃ w0 path,
    PagingLogger.write_all P stringify lines w = (Ok tt, w0) ∧
    pageNumber <$> PagingLogger.emitted w0 = seq 1 (N / P) ∧
    PagingLogger.pageCount (PagingLogger.self w0) = N / P + 1 ∧
    PagingLogger.lineCount (PagingLogger.self w0) = N `mod` P ∧
    PagingLogger.lineCount (PagingLogger.self w0) < P ∧
    PagingLogger.pageFilePath (PagingLogger.self w0) = Some path ∧
    length <$> (Fs.files (PagingLogger.fs w0) !! path) = Some (N `mod` P).
Proof.
  intros HP Hne Hfs w N.
  pose proof (create_written P stringify HP
                (PagingLogger.new logFolder md id now pid) eq_refl eq_refl
                (page_file_not_log logFolder md id now pid) fs0 Hfs) as H0.
  destruct (write_all_written P stringify HP _ lines _ _ _ _ H0)
    as (q & r & w0 & E0 & H1).
  cbn [app] in H1. destruct (written_div_mod P HP _ _ _ _ _ H1) as [-> ->].
  destruct H1 as (Hlen & Hr & fd & Hself & Hfd & Hfiles & Hem).
  assert (PagingLogger.write_all P stringify lines w = (Ok tt, w0)) as E.
  { destruct lines as [|line lines]; [done|].
    unfold PagingLogger.write_all in *. cbn in *. unfold bind in *.
    by rewrite write_unset. }
  subst N. eexists w0, _. split; [exact E|]. rewrite Hself.
  cbn [PagingLogger.pageCount PagingLogger.lineCount PagingLogger.pageFilePath].
  split_and!; try done; try lia.
  - rewrite Hem, <- list_fmap_compose. by rewrite list_fmap_id.
  - rewrite Hfiles, decide_True by done. cbn. f_equal.
    rewrite chunk_length_last; lia.
Qed.

(** *** Instances *)

Lemma stream_pages_and_line_counts_witness :
  0 < PAGE_SIZE ∧ replicate 60 "line" ≠ [] ∧
  (∀ n, Fs.files Fs.empty !!
          PagingLogger.page_file (Fs.join "/work/_logs" "pages") "id" n = None) ∧
  ∃ w', PagingLogger.session PAGE_SIZE (λ _, "{}") (replicate 60 "line")
          (PagingLoggerSpec.fresh_world "/work/_logs"
             (mkMetadata "job" "record" None None) "id" "2015-01-01" 1 Fs.empty)
        = (Ok tt, w') ∧
        PagingLogger.closed_pages w' = [(1, Some 25); (2, Some 25); (3, Some 10)].
Proof.
  split; [unfold PAGE_SIZE; lia|]. split; [done|]. split; [done|].
  destruct (stream_pages_and_line_counts PAGE_SIZE (λ _, "{}") "/work/_logs"
              (mkMetadata "job" "record" None None) "id" "2015-01-01" 1 Fs.empty
              (replicate 60 "line"))
    as (w' & E & Hp); [unfold PAGE_SIZE; lia|done|done|].
  exists w'. split; [exact E|]. rewrite Hp. reflexivity.
Defined.

Lemma pages_hold_the_lines_in_order_witness :
  0 < 2 ∧ ["a"; "b"; "c"] ≠ [] ∧
  (∀ n, Fs.files Fs.empty !!
          PagingLogger.page_file (Fs.join "/work/_logs" "pages") "id" n = None) ∧
  ∃ w' pages,
    PagingLogger.session 2 (λ _, "{}") ["a"; "b"; "c"]
      (PagingLoggerSpec.fresh_world "/work/_logs"
         (mkMetadata "job" "record" None None) "id" "2015-01-01" 1 Fs.empty)
    = (Ok tt, w') ∧
    PagingLogger.page_lines w' <$> PagingLogger.emitted w' = Some <$> pages ∧
    mjoin pages = ["a"; "b"; "c"].
Proof.
  split; [lia|]. split; [done|]. split; [done|].
  apply (pages_hold_the_lines_in_order 2 (λ _, "{}") "/work/_logs"
           (mkMetadata "job" "record" None None) "id" "2015-01-01" 1 Fs.empty
           ["a"; "b"; "c"]); [lia|done|done].
Defined.

Lemma metadata_file_written_once_witness :
  ["a"] ≠ [] ∧
  ∃ w', PagingLogger.session PAGE_SIZE (λ md, jobInfo md) ["a"]
          (PagingLoggerSpec.fresh_world "/work/_logs"
             (mkMetadata "job" "record" None None) "id" "2015-01-01" 1 Fs.empty)
        = (Ok tt, w') ∧
        Fs.files (PagingLogger.fs w') !! "/work/_logs/2015-01-01_1.log"
          = Some ["job"].
Proof.
  split; [done|].
  destruct (metadata_file_written_once PAGE_SIZE (λ md, jobInfo md) "/work/_logs"
              (mkMetadata "job" "record" None None) "id" "2015-01-01" 1 Fs.empty
              ["a"]) as (w' & E & Hf & _); [done|].
  exists w'. split; [exact E|exact Hf].
Defined.

Lemma pages_announced_while_writing_witness :
  0 < PAGE_SIZE ∧ replicate 25 "line" ≠ [] ∧
  (∀ n, Fs.files Fs.empty !!
          PagingLogger.page_file (Fs.join "/work/_logs" "pages") "id" n = None) ∧
  ∃ w0, PagingLogger.write_all PAGE_SIZE (λ _, "{}") (replicate 25 "line")
          (PagingLoggerSpec.fresh_world "/work/_logs"
             (mkMetadata "job" "record" None None) "id" "2015-01-01" 1 Fs.empty)
        = (Ok tt, w0) ∧
        pageNumber <$> PagingLogger.emitted w0 = [1] ∧
        PagingLogger.pageCount (PagingLogger.self w0) = 2 ∧
        PagingLogger.lineCount (PagingLogger.self w0) = 0.
Proof.
  split; [unfold PAGE_SIZE; lia|]. split; [done|]. split; [done|].
  destruct (pages_announced_while_writing PAGE_SIZE (λ _, "{}") "/work/_logs"
              (mkMetadata "job" "record" None None) "id" "2015-01-01" 1 Fs.empty
              (replicate 25 "line"))
    as (w0 & path & E & Hn & Hc & Hl & _); [unfold PAGE_SIZE; lia|done|done|].
  exists w0. split; [exact E|]. split; [exact Hn|]. split; [exact Hc|exact Hl].
Defined.

(** ** The diagnostic context: raw output, listeners, fields, banners *)

Section ContextMoreFacts.
Import Context ContextSpec ContextMore.
Context `{Platform}.

(** A loop that makes one call on every writer. *)
Lemma forEach_call (ev : nat → Event) (o : nat) ws w :
  sequence_ (imap (λ i (_ : DiagnosticLevel), log (ev (o + i))) ws) w =
  (Ok tt, advance 0 (imap (λ i _, ev (o + i)) ws) w).
Proof.
  revert o w. induction ws as [|wl ws IH]; intros o w.
  - cbn. by rewrite advance_0_nil.
  - rewrite !imap_cons. cbn [sequence_].
    rewrite (imap_ext _ (λ i (_ : DiagnosticLevel), log (ev (S o + i))))
      by (intros; cbn; by rewrite Nat.add_succ_r).
    rewrite (imap_ext (_ ∘ S) (λ i (_ : DiagnosticLevel), ev (S o + i)))
      by (intros; cbn; by rewrite Nat.add_succ_r).
    rewrite (bind_ok _ _ w tt (advance 0 [ev (o + 0)] w)) by done.
    by rewrite IH, advance_advance.
Qed.

Lemma received_calls (ev : nat → Event) (c : WriterCall) i (o : nat)
    (ws : list DiagnosticLevel) :
  (∀ j, to_writer i (ev j) = if decide (i = j) then Some c else None) →
  received i (imap (λ j _, ev (o + j)) ws) =
  if decide (o ≤ i < o + length ws) then [c] else [].
Proof.
  intros Hev. revert o. induction ws as [|wl ws IH]; intros o.
  - cbn. case_decide; [lia|done].
  - rewrite imap_cons.
    rewrite (imap_ext (_ ∘ S) (λ j (_ : DiagnosticLevel), ev (S o + j)))
      by (intros; cbn; by rewrite Nat.add_succ_r).
    change (received i (?e :: ?l)) with
      (from_option (λ x, x :: received i l) (received i l) (to_writer i e)).
    rewrite IH, Hev, Nat.add_0_r. cbn [length].
    destruct (decide (i = o)) as [->|Hne]; cbn [from_option].
    + rewrite (decide_False (P := S o ≤ o < _)), (decide_True (P := o ≤ o < _))
        by lia. done.
    + destruct (decide (S o ≤ i < S o + length ws)).
      * by rewrite (decide_True (P := o ≤ i < _)) by lia.
      * by rewrite (decide_False (P := o ≤ i < _)) by lia.
Qed.

Lemma messages_app tr1 tr2 : messages (tr1 ++ tr2) = messages tr1 ++ messages tr2.
Proof. apply omap_app. Qed.

Lemma messages_deliveries level line (ws : list DiagnosticLevel) (g : nat → nat) :
  messages (mjoin (imap (λ i wl,
    if accepts wl level then [delivery_event level (g i) line] else []) ws)) = [].
Proof.
  revert g. induction ws as [|wl ws IH]; intros g; [done|].
  rewrite imap_cons. cbn [mjoin list_join]. rewrite messages_app.
  rewrite (imap_ext (_ ∘ S) (λ i wl,
    if accepts wl level then [delivery_event level ((g ∘ S) i) line] else []))
    by done.
  rewrite IH, app_nil_r.
  destruct (accepts wl level); [|done]. by destruct level.
Qed.

Lemma messages_lines_events level tag ws r raws :
  messages (lines_events level tag ws r raws) =
  (λ raw, tag_prefix tag +:+ strip_newlines raw) <$> raws.
Proof.
  unfold lines_events. revert r. induction raws as [|raw raws IH]; intros r; [done|].
  rewrite imap_cons. cbn [mjoin list_join]. rewrite messages_app.
  rewrite (imap_ext (_ ∘ S) (λ k raw,
    line_events level tag ws (clock (S r + k)) raw))
    by (intros; cbn; by rewrite Nat.add_succ_r).
  rewrite IH. unfold line_events.
  change (messages (Emit_message ?t :: ?l)) with (t :: messages l).
  by rewrite (messages_deliveries _ _ _ id).
Qed.

Lemma strip_newlines_clean s : no_line_break (strip_newlines s).
Proof.
  unfold no_line_break. induction s as [|c s IH]; [constructor|].
  cbn [strip_newlines]. destruct (is_newline c) eqn:Ec; [done|].
  cbn. by constructor.
Qed.

Lemma no_line_break_app s1 s2 :
  no_line_break s1 → no_line_break s2 → no_line_break (s1 +:+ s2).
Proof.
  unfold no_line_break. rewrite to_list_app. intros. by apply Forall_app.
Qed.

(** What a call does to the fields of the context. *)
Lemma exec_fields c w :
  self (exec c w).2 =
  if is_error_call c then mk true (writers (self w)) else self w.
Proof.
  assert (∀ m : M world unit, keeps (λ w', self w' = self w) m →
            self (m w).2 = self w) as Hk by (intros m Hm; by apply Hm).
  destruct c; cbn [exec is_error_call];
    unfold output, error, warning, info, verbose, status, heading, section, end_;
    try (apply Hk;
         repeat first
           [ apply (keeps_write (λ l, l = self w))
           | apply keeps_forEach; intros ??
           | apply keeps_bind; [|intros ?]
           | by intros ?
           | case_decide ]).
  rewrite (bind_ok (set_hasErrors true) _ w tt
             (mkWorld (mk true (writers (self w))) (heap w) (reads w) (trace w)))
    by done.
  by apply (keeps_write (λ l, l = mk true (writers (self w)))).
Qed.

Lemma exec_all_writers cs w :
  writers (self (exec_all cs w)) = writers (self w).
Proof.
  revert w. induction cs as [|c cs IH]; intros w; [done|].
  change (exec_all (c :: cs) w) with (exec_all cs (exec c w).2).
  rewrite IH, exec_fields. by destruct (is_error_call c).
Qed.

(** [k] passages of a text through [_write]. *)
Lemma repeated_write level tag s k w :
  let raws := split EOL s in
  sequence_ (replicate k (_write level tag (Js.JStr s))) w =
  (Ok tt, advance (k * length raws)
            (repeated_events level tag (writers (self w)) (reads w) raws k) w).
Proof.
  intros raws. revert w. induction k as [|k IH]; intros w.
  - cbn. by rewrite advance_0_nil.
  - cbn [replicate sequence_]. erewrite bind_ok by apply _write_string.
    rewrite IH, advance_advance. unfold advance at 3.
    cbn [self reads writers]. fold raws.
    replace (length raws + k * length raws) with (S k * length raws) by lia.
    f_equal. f_equal.
    unfold repeated_events. cbn [seq fmap list_fmap mjoin list_join].
    rewrite Nat.mul_0_l, Nat.add_0_r. f_equal.
    rewrite <- fmap_S_seq, <- list_fmap_compose. f_equal.
    apply list_fmap_ext. intros _ j _. cbn. f_equal. lia.
Qed.

Lemma messages_repeated level tag ws r raws k :
  messages (repeated_events level tag ws r raws k) =
  mjoin (replicate k ((λ raw, tag_prefix tag +:+ strip_newlines raw) <$> raws)).
Proof.
  unfold repeated_events. generalize 0 as o.
  induction k as [|k IH]; intros o; [done|].
  cbn [seq fmap list_fmap mjoin list_join replicate].
  by rewrite messages_app, messages_lines_events, IH.
Qed.

Lemma received_repeated level tag ws r raws k i :
  received i (repeated_events level tag ws r raws k) =
  match ws !! i with
  | Some wl =>
      if accepts wl level
      then mjoin ((λ j, delivery level <$>
                     imap (λ n raw, persisted_line tag
                                      (clock (r + j * length raws + n)) raw) raws)
                  <$> seq 0 k)
      else []
  | None => []
  end.
Proof.
  unfold repeated_events. generalize 0 as o.
  induction k as [|k IH]; intros o.
  - cbn. destruct (ws !! i) as [wl|]; [by destruct (accepts wl level)|done].
  - cbn [seq fmap list_fmap mjoin list_join].
    rewrite received_app, received_lines_events, IH.
    destruct (ws !! i) as [wl|]; [|done]. by destruct (accepts wl level).
Qed.

Lemma messages_calls (ev : nat → Event) (ws : list DiagnosticLevel) :
  (∀ j, messages [ev j] = []) → messages (imap (λ i _, ev i) ws) = [].
Proof.
  intros Hev. revert ev Hev. induction ws as [|wl ws IH]; intros ev Hev; [done|].
  rewrite imap_cons. change (?e :: ?l) with ([e] ++ l).
  rewrite messages_app, Hev. apply (IH (ev ∘ S)). intros j. apply Hev.
Qed.

(** One call on every writer, whatever its threshold. *)
Lemma forEach_call_all (ev : nat → Event) (c : WriterCall) w :
  (∀ i j, to_writer i (ev j) = if decide (i = j) then Some c else None) →
  (∀ j, messages [ev j] = []) →
  let ws := writers (self w) in
  ∃ w', forEach_writer (λ i _, log (ev i)) w = (Ok tt, w') ∧
        self w' = self w ∧ reads w' = reads w ∧ heap w' = heap w ∧
        trace w' = trace w ++ imap (λ i _, ev i) ws ∧
        (∀ i, received i (trace w') =
              received i (trace w) ++ if decide (i < length ws) then [c] else []) ∧
        messages (trace w') = messages (trace w).
Proof.
  intros Hev Hmsg ws. eexists. split.
  - change (forEach_writer ?f w) with (sequence_ (imap f (writers (self w))) w).
    apply (forEach_call ev 0).
  - cbn [advance self reads heap trace]. fold ws. split_and!; try done.
    + intros i. rewrite received_app. f_equal.
      rewrite (received_calls ev c i 0 ws (Hev i)).
      destruct (decide (i < length ws)).
      * by rewrite decide_True by lia.
      * by rewrite decide_False by lia.
    + rewrite messages_app, (messages_calls ev) by done. apply app_nil_r.
Qed.

(** The banner of [heading] and [section]: a text that goes through
    the leveled path once for each writer that passes the Status test. *)
Lemma banner_events text w :
  let k := status_writers (writers (self w)) in
  let raws := split EOL text in
  forEach_writer (λ _ wl,
    if decide (level_num Status ≤ level_num wl)%Z
    then _write Info None (Js.JStr text) else ret tt) w =
  (Ok tt, advance (k * length raws)
            (repeated_events Info None (writers (self w)) (reads w) raws k) w).
Proof.
  intros k raws. rewrite forEach_status_writers. apply repeated_write.
Qed.

End ContextMoreFacts.

(** X6.  [output(line)] hands the line as it is to every registered
    writer, once each and in the order of registration, whatever the
    threshold of the writer; it emits no ['message'] event, does not
    read the clock and leaves the fields alone. *)
Theorem output_reaches_every_writer `{Platform} (line : string)
    (w : Context.world) :
  let ws := Context.writers (Context.self w) in
  ∃ w', Context.output line w = (Ok tt, w') ∧
        Context.self w' = Context.self w ∧
        Context.reads w' = Context.reads w ∧
        Context.heap w' = Context.heap w ∧
        Context.trace w' =
          Context.trace w ++ imap (λ i _, Context.Writer_write i line) ws ∧
        (∀ i, Context.received i (Context.trace w') =
              Context.received i (Context.trace w) ++
              if decide (i < length ws) then [Context.Write line] else []) ∧
        ContextMore.messages (Context.trace w') =
          ContextMore.messages (Context.trace w).
Proof.
  apply (forEach_call_all (λ i, Context.Writer_write i line) (Context.Write line)).
  - intros i j. cbn. done.
  - done.
Qed.

(** X7.  [end()] ends every registered writer, once each and in the
    order of registration, and does nothing else. *)
Theorem end_reaches_every_writer `{Platform} (w : Context.world) :
  let ws := Context.writers (Context.self w) in
  ∃ w', Context.end_ w = (Ok tt, w') ∧
        Context.self w' = Context.self w ∧
        Context.reads w' = Context.reads w ∧
        Context.heap w' = Context.heap w ∧
        Context.trace w' =
          Context.trace w ++ imap (λ i _, Context.Writer_end i) ws ∧
        (∀ i, Context.received i (Context.trace w') =
              Context.received i (Context.trace w) ++
              if decide (i < length ws) then [Context.End_] else []) ∧
        ContextMore.messages (Context.trace w') =
          ContextMore.messages (Context.trace w).
Proof.
  apply (forEach_call_all (λ i, Context.Writer_end i) Context.End_).
  - intros i j. cbn. done.
  - done.
Qed.

(** X8.  A leveled call with a text emits one ['message'] event for
    each line of the text, in order, carrying the tag and the line,
    whatever the writers and their thresholds, also when there is no
    writer; no event text holds a carriage return or a line feed. *)
Theorem leveled_message_events `{Platform} (c : Context.call)
    (level : DiagnosticLevel) (tag : option string) (s : string)
    (w : Context.world) :
  ContextSpec.leveled c = Some (level, tag, Js.JStr s) →
  let w' := (Context.exec c w).2 in
  let texts := (λ raw, Context.tag_prefix tag +:+ strip_newlines raw)
                 <$> split EOL s in
  ContextMore.messages (Context.trace w') =
    ContextMore.messages (Context.trace w) ++ texts ∧
  texts ≠ [] ∧
  Forall ContextMore.no_line_break texts.
Proof.
  intros Hc w' texts.
  destruct (exec_leveled_string c level tag s w Hc) as (_ & _ & Htr).
  split_and!.
  - subst w'. by rewrite Htr, messages_app, messages_lines_events.
  - subst texts. intros E%(f_equal length). rewrite length_fmap in E.
    apply length_zero_iff_nil in E.
    by apply split_not_nil in E; [|apply EOL_not_empty].
  - subst texts. apply Forall_fmap, Forall_true. intros raw. cbn.
    apply no_line_break_app; [|apply strip_newlines_clean].
    assert (tag = Some "Error" ∨ tag = Some "Warning" ∨ tag = None) as Ht
      by (destruct c; try discriminate Hc; injection Hc as ? <- ?; auto).
    destruct Ht as [-> | [-> | ->]]; unfold ContextMore.no_line_break; cbn;
      repeat constructor.
Qed.

(** X9.  The error flag at the end of any sequence of calls is the
    flag at the start or the presence of an [error()] among them: no
    other call sets it and none clears it; the list of writers never
    changes. *)
Theorem hasErrors_iff_error_called `{Platform} (cs : list Context.call)
    (w : Context.world) :
  Context.hasErrors (Context.self (Context.exec_all cs w)) =
    Context.hasErrors (Context.self w) || existsb ContextMore.is_error_call cs ∧
  Context.writers (Context.self (Context.exec_all cs w)) =
    Context.writers (Context.self w).
Proof.
  revert w. induction cs as [|c cs IH]; intros w.
  - cbn. by rewrite orb_false_r.
  - change (Context.exec_all (c :: cs) w) with
      (Context.exec_all cs (Context.exec c w).2).
    cbn [existsb]. destruct (IH (Context.exec c w).2) as [-> ->].
    rewrite exec_fields. destruct (ContextMore.is_error_call c); cbn.
    + by rewrite orb_true_r.
    + done.
Qed.

(** X10.  [heading] and [section] emit the lines of their banner as
    ['message'] events once for each writer whose threshold is at
    least Status, and read the clock once per line and per passage;
    with no such writer they do nothing at all. *)
Theorem banner_message_events `{Platform} (m : string) (w : Context.world) :
  let k := ContextSpec.status_writers (Context.writers (Context.self w)) in
  let shown text := strip_newlines <$> split EOL text in
  let after (r : outcome unit * Context.world) text :=
    r.1 = Ok tt ∧
    Context.self r.2 = Context.self w ∧
    Context.reads r.2 = k * length (split EOL text) + Context.reads w ∧
    ContextMore.messages (Context.trace r.2) =
      ContextMore.messages (Context.trace w) ++ mjoin (replicate k (shown text)) in
  after (Context.heading m w) (Context.heading_text m) ∧
  after (Context.section m w) (Context.section_text m) ∧
  (k = 0 → Context.heading m w = (Ok tt, w) ∧ Context.section m w = (Ok tt, w)).
Proof.
  intros k shown after.
  assert (∀ text, after (Context.forEach_writer (λ _ wl,
            if decide (level_num Status ≤ level_num wl)%Z
            then Context._write Info None (Js.JStr text) else ret tt) w) text)
    as Hafter.
  { intros text. rewrite banner_events. unfold after.
    cbn [fst snd ContextSpec.advance Context.self Context.reads Context.trace].
    split_and!; try done.
    by rewrite messages_app, messages_repeated. }
  split_and!; [apply Hafter|apply Hafter|].
  intros Hk. unfold Context.heading, Context.section. rewrite !banner_events.
  fold k. rewrite Hk. cbn. by rewrite advance_0_nil.
Qed.

(** X11.  What a writer gets from [heading] and [section]: nothing
    when its threshold is below Info, a console at Status included,
    although Status is the level tested; otherwise the persisted lines
    of the banner once for each writer that passes the Status test. *)
Theorem banner_delivery `{Platform} (m : string) (w : Context.world)
    (i : nat) (wl : DiagnosticLevel) :
  Context.writers (Context.self w) !! i = Some wl →
  let k := ContextSpec.status_writers (Context.writers (Context.self w)) in
  let copies text :=
    mjoin ((λ j, Context.Write <$>
                   ContextSpec.persisted_lines None
                     (Context.reads w + j * length (split EOL text)) text)
           <$> seq 0 k) in
  let got (w' : Context.world) text :=
    Context.received i (Context.trace w') =
      Context.received i (Context.trace w) ++
      (if decide (level_num wl >= level_num Info)%Z then copies text else []) in
  got (Context.heading m w).2 (Context.heading_text m) ∧
  got (Context.section m w).2 (Context.section_text m).
Proof.
  intros Hi k copies got.
  assert (∀ text, got (Context.forEach_writer (λ _ wl,
            if decide (level_num Status ≤ level_num wl)%Z
            then Context._write Info None (Js.JStr text) else ret tt) w).2 text)
    as Hgot; [|split; apply Hgot].
  intros text. rewrite banner_events. unfold got.
  cbn [snd ContextSpec.advance Context.trace].
  rewrite received_app, received_repeated, Hi. f_equal.
  unfold ContextSpec.accepts, bool_decide. subst copies k. cbv beta.
  destruct (decide_rel Z.le _ _), (decide (_ >= _)%Z); first [reflexivity|lia].
Qed.

(** *** Instances *)

Lemma leveled_message_events_witness :
  let c := Context.Call_error (Js.JStr ("disk" +:+ line_feed +:+ "full")) in
  let w := Context.mkWorld (Context.new []) ∅ 0 [] in
  ContextSpec.leveled c =
    Some (Error, Some "Error", Js.JStr ("disk" +:+ line_feed +:+ "full")) ∧
  ContextMore.messages (Context.trace (@Context.exec sample_platform c w).2) =
    ["[Error] disk"; "[Error] full"].
Proof.
  intros c w. split; [reflexivity|].
  destruct (@leveled_message_events sample_platform c Error (Some "Error")
              ("disk" +:+ line_feed +:+ "full") w eq_refl) as (E & _).
  rewrite E. vm_compute. reflexivity.
Defined.

Lemma banner_delivery_witness :
  let w := Context.mkWorld (Context.new [Status; Verbose]) ∅ 0 [] in
  Context.writers (Context.self w) !! 0 = Some Status ∧
  Context.received 0 (Context.trace (@Context.heading sample_platform "Build" w).2)
    = [].
Proof.
  intros w. split; [reflexivity|].
  destruct (@banner_delivery sample_platform "Build" w 0 Status eq_refl) as [E _].
  rewrite E. reflexivity.
Defined.

(** ** Agent and execution contexts *)

Section ExecutionContextFacts.
Import Context ContextSpec ContextMore ExecutionContextSpec.
Context `{Platform}.

Lemma keeps_log_never_ended i e :
  to_writer i e ≠ Some End_ → keeps (never_ended i) (log e).
Proof.
  intros He w Hw. unfold never_ended, log, modify. cbn [snd trace].
  rewrite received_app. apply Forall_app. split; [done|].
  unfold received. cbn. destruct (to_writer i e) as [c|]; [|constructor].
  repeat constructor. congruence.
Qed.

Lemma keeps_write_never_ended i level tag m :
  keeps (never_ended i) (_write level tag m).
Proof.
  assert (∀ j l, to_writer i (Writer_write j l) ≠ Some End_) as Hw
    by (intros; cbn; by case_decide).
  assert (∀ j l, to_writer i (Writer_writeError j l) ≠ Some End_) as He
    by (intros; cbn; by case_decide).
  destruct m; cbn [_write];
    try (apply keeps_bind; [by apply keeps_log_never_ended|intros ?];
         apply keeps_bind; [by intros ?|intros ?];
         by apply keeps_log_never_ended).
  apply keeps_sequence, Forall_fmap, Forall_true. intros raw.
  unfold write_line. apply keeps_bind; [by intros ?|intros now].
  apply keeps_bind; [by apply keeps_log_never_ended|intros ?].
  apply keeps_forEach. intros j wl. case_decide; [|by intros ?].
  destruct level; by apply keeps_log_never_ended.
Qed.

Lemma keeps_exec_never_ended i c :
  c ≠ Call_end → keeps (never_ended i) (exec c).
Proof.
  intros Hc. destruct c; try done; cbn [exec];
    unfold output, error, warning, info, verbose, status, heading, section;
    repeat first
      [ apply keeps_write_never_ended
      | apply keeps_forEach; intros ??
      | apply keeps_bind; [|intros ?]
      | apply keeps_log_never_ended; cbn; by case_decide
      | by intros ?
      | case_decide ].
Qed.

Lemma exec_all_never_ended i cs w :
  Forall (λ c, c ≠ Call_end) cs → never_ended i w → never_ended i (exec_all cs w).
Proof.
  intros Hcs. revert w. induction Hcs as [|c cs Hc _ IH]; intros w Hw; [done|].
  change (exec_all (c :: cs) w) with (exec_all cs (exec c w).2).
  apply IH. by apply keeps_exec_never_ended.
Qed.

(** The calls on the first writer when a list of calls is followed by
    [end()]. *)
Lemma received_then_end cs w :
  writers (self w) ≠ [] →
  received 0 (trace (exec_all (cs ++ [Call_end]) w)) =
  received 0 (trace (exec_all cs w)) ++ [End_].
Proof.
  intros Hws. rewrite exec_all_app.
  change (exec_all [Call_end] ?w1) with (end_ w1).2.
  destruct (forEach_call_all (λ i, Writer_end i) End_ (exec_all cs w))
    as (w' & E & _ & _ & _ & _ & Hrec & _); [by intros i j|done|].
  unfold end_. rewrite E. cbn [snd]. rewrite Hrec, exec_all_writers.
  rewrite decide_True; [done|]. destruct (writers (self w)); [done|cbn; lia].
Qed.

Lemma lines_of_app cs1 cs2 :
  ExecutionContext.lines_of (cs1 ++ cs2) =
  ExecutionContext.lines_of cs1 ++ ExecutionContext.lines_of cs2.
Proof. apply omap_app. Qed.

Lemma sequence_snoc {S} (ms : list (M S unit)) (m : M S unit) s :
  sequence_ (ms ++ [m]) s = (sequence_ ms ;; m) s.
Proof.
  revert s. induction ms as [|m0 ms IH]; intros s.
  - cbn. unfold bind, ret. destruct (m s) as [[[]|?] ?]; reflexivity.
  - cbn [app sequence_]. unfold bind. destruct (m0 s) as [[[]|?] s1]; [|done].
    rewrite IH. reflexivity.
Qed.

(** Writes and then one [end()], carried out by the logger, are one
    stream. *)
Lemma carry_out_stream P stringify (cs : list WriterCall) lw :
  Forall (λ c, c ≠ End_) cs →
  ExecutionContext.carry_out P stringify (cs ++ [End_]) lw =
  PagingLogger.session P stringify (ExecutionContext.lines_of cs) lw.
Proof.
  intros Hcs. unfold ExecutionContext.carry_out, PagingLogger.session,
    PagingLogger.write_all.
  rewrite fmap_app. cbn [fmap list_fmap ExecutionContext.writer_call].
  rewrite sequence_snoc.
  assert (ExecutionContext.writer_call P stringify <$> cs =
          PagingLogger.write P stringify <$> ExecutionContext.lines_of cs) as ->;
    [|done].
  induction Hcs as [|c cs Hc _ IH]; [done|].
  destruct c as [line|line|]; [| |done];
    cbn [fmap list_fmap ExecutionContext.lines_of omap list_omap
         ExecutionContext.writer_call];
    fold (ExecutionContext.lines_of cs); by rewrite IH.
Qed.

Lemma forward_pages_trace infos jw :
  JobContext.trace (ExecutionContext.forward_pages infos jw) =
  JobContext.trace jw ++
  ((λ info, JobContext.Feedback (JobContext.queueLogPage info)) <$> infos).
Proof.
  revert jw. induction infos as [|info infos IH]; intros jw.
  - cbn. by rewrite app_nil_r.
  - cbn [ExecutionContext.forward_pages foldl fmap list_fmap].
    fold (ExecutionContext.forward_pages infos (JobContext.on_pageComplete info jw)).
    rewrite IH. cbn. by rewrite <- (assoc_L (++)).
Qed.

(** What a verbose call gives a writer whose threshold is below
    Verbose: nothing, whatever the argument. *)
Lemma verbose_below_threshold m w i wl :
  writers (self w) !! i = Some wl → wl ≠ Verbose →
  received i (trace (verbose m w).2) = received i (trace w).
Proof.
  intros Hi Hwl. destruct (Js.is_string m) eqn:Hm.
  - destruct m; try done. unfold verbose. rewrite _write_string.
    cbn [snd advance trace]. rewrite received_app, received_lines_events, Hi.
    assert (accepts wl Verbose = false) as ->
      by (destruct wl; try done; by destruct Hwl).
    apply app_nil_r.
  - by destruct (non_string_argument_discarded (Call_verbose m) Verbose None m w
                   eq_refl Hm) as (Hrec & _).
Qed.

End ExecutionContextFacts.

(** X12.  An execution context from its first call to its [end()]:
    the lines it hands to its logger are all on the closed pages, in
    the order they were handed over, errors among the others, and the
    feedback channel is given each closed page once, in the order of
    the page numbers. *)
Theorem execution_context_log_reaches_pages `{Platform} (P : nat) stringify
    (verbose : bool) (hp : Js.heap)
    (workFolder jobInfo recordId id now : string) (pid : nat) (fs0 : Fs.t)
    (cs : list Context.call) :
  0 < P →
  Forall (λ c, c ≠ Context.Call_end) cs →
  (∀ n, Fs.files fs0 !!
          PagingLogger.page_file (Fs.join (Fs.join workFolder "_logs") "pages")
                                 id n = None) →
  ExecutionContext.lines_of
    (Context.received 0 (Context.trace (Context.exec_all cs
       (Context.mkWorld (ExecutionContext.new verbose) hp 0 [])))) ≠ [] →
  let w := Context.mkWorld (ExecutionContext.new verbose) hp 0 [] in
  let calls := Context.received 0 (Context.trace
                 (Context.exec_all (cs ++ [Context.Call_end]) w)) in
  let lw := PagingLogger.mkWorld
              (ExecutionContext.new_logger workFolder jobInfo recordId id now pid)
              fs0 [] in
  ∃ lw' pages,
    ExecutionContext.carry_out P stringify calls lw = (Ok tt, lw') ∧
    PagingLogger.page_lines lw' <$> PagingLogger.emitted lw' = Some <$> pages ∧
    mjoin pages = ExecutionContext.lines_of calls ∧
    ∀ jw, JobContext.trace
            (ExecutionContext.forward_pages (PagingLogger.emitted lw') jw) =
          JobContext.trace jw ++
          ((λ info, JobContext.Feedback (JobContext.queueLogPage info))
             <$> PagingLogger.emitted lw').
Proof.
  intros HP Hcs Hfs Hne w calls lw.
  assert (calls = Context.received 0 (Context.trace (Context.exec_all cs w))
                  ++ [Context.End_]) as Ecalls
    by (apply received_then_end; by destruct verbose).
  assert (ExecutionContext.lines_of calls =
          ExecutionContext.lines_of
            (Context.received 0 (Context.trace (Context.exec_all cs w)))) as Elines
    by (rewrite Ecalls, lines_of_app; apply app_nil_r).
  rewrite Elines, Ecalls.
  rewrite carry_out_stream
    by (apply (exec_all_never_ended 0 cs w Hcs); constructor).
  destruct (session_pages_concat P stringify (Fs.join workFolder "_logs")
              (mkMetadata jobInfo recordId None None) id now pid fs0 _ HP Hne Hfs)
    as (lw' & pages & E & Hp & Hj).
  exists lw', pages. split_and!; try done. intros jw. apply forward_pages_trace.
Qed.

(** X13.  Without the verbosity flag, a job that only makes verbose
    calls and ends leaves nothing behind: the logger is handed its
    [end()] alone, which on a logger never written to creates no
    metadata file and no page file and announces nothing, so that
    nothing is queued for upload. *)
Theorem verbose_only_job_leaves_no_log `{Platform} (P : nat) stringify
    (hp : Js.heap) (workFolder jobInfo recordId id now : string) (pid : nat)
    (fs0 : Fs.t) (cs : list Context.call) :
  forallb ExecutionContextSpec.is_verbose_call cs = true →
  let w := Context.mkWorld (ExecutionContext.new false) hp 0 [] in
  let calls := Context.received 0 (Context.trace
                 (Context.exec_all (cs ++ [Context.Call_end]) w)) in
  let lw := PagingLogger.mkWorld
              (ExecutionContext.new_logger workFolder jobInfo recordId id now pid)
              fs0 [] in
  calls = [Context.End_] ∧
  ExecutionContext.carry_out P stringify calls lw = (Ok tt, lw) ∧
  ∀ jw, ExecutionContext.forward_pages
          (PagingLogger.emitted
             (ExecutionContext.carry_out P stringify calls lw).2) jw = jw.
Proof.
  intros Hcs w calls lw.
  assert (Context.received 0 (Context.trace (Context.exec_all cs w)) = []) as E0.
  { assert (∀ w1, Context.writers (Context.self w1) = [Info] →
              Context.received 0 (Context.trace (Context.exec_all cs w1)) =
              Context.received 0 (Context.trace w1)) as Hgen; [|by apply Hgen].
    clear w calls. induction cs as [|c cs IH]; intros w1 Hw1; [done|].
    cbn [forallb] in Hcs. apply andb_prop in Hcs as [Hc Hcs].
    change (Context.exec_all (c :: cs) w1) with
      (Context.exec_all cs (Context.exec c w1).2).
    rewrite IH; [|done|].
    - destruct c; try discriminate Hc. cbn [Context.exec].
      apply (verbose_below_threshold _ _ 0 Info); [by rewrite Hw1|done].
    - rewrite exec_fields. by destruct c. }
  assert (calls = [Context.End_]) as Ecalls.
  { subst calls. rewrite received_then_end by done. by rewrite E0. }
  rewrite Ecalls. split_and!; done.
Qed.

(** X14.  In an agent context the console is the first writer, at
    Status: info and verbose messages, headings and sections never
    reach it, whatever the verbosity flag; [trace] goes to the file
    writer alone, and always. *)
Theorem agent_console_is_spared `{Platform} (verbose : bool)
    (c : Context.call) (message : string) (w : Context.world) :
  ExecutionContextSpec.below_console c = true →
  Context.writers (Context.self w) =
    Context.writers (AgentContext.new verbose) →
  Context.received 0 (Context.trace (Context.exec c w).2) =
    Context.received 0 (Context.trace w) ∧
  Context.received 0 (Context.trace (AgentContext.trace message w).2) =
    Context.received 0 (Context.trace w) ∧
  Context.received 1 (Context.trace (AgentContext.trace message w).2) =
    Context.received 1 (Context.trace w) ++ [Context.Write message].
Proof.
  intros Hc Hw. cbn in Hw.
  assert (∀ m, Context.received 0 (Context.trace (Context._write Info None m w).2)
               = Context.received 0 (Context.trace w)) as Hinfo.
  { intros m. destruct (Js.is_string m) eqn:Hm.
    - destruct m; try done. rewrite _write_string.
      cbn [snd ContextSpec.advance Context.trace].
      rewrite received_app, received_lines_events, Hw. apply app_nil_r.
    - by destruct (non_string_argument_discarded (Context.Call_info m) Info None
                     m w eq_refl Hm) as (Hrec & _). }
  assert (∀ text, Context.received 0 (Context.trace
            (Context.forEach_writer (λ _ wl,
               if decide (level_num Status ≤ level_num wl)%Z
               then Context._write Info None (Js.JStr text) else ret tt) w).2)
            = Context.received 0 (Context.trace w)) as Hbanner.
  { intros text. rewrite banner_events.
    cbn [snd ContextSpec.advance Context.trace].
    rewrite received_app, received_repeated, Hw. apply app_nil_r. }
  split_and!.
  - destruct c; try discriminate Hc; cbn [Context.exec].
    + apply Hinfo.
    + apply (verbose_below_threshold _ _ 0 Status); [by rewrite Hw|done].
    + apply Hbanner.
    + apply Hbanner.
  - unfold AgentContext.trace, Context.log, modify. cbn [snd Context.trace].
    rewrite received_app. apply app_nil_r.
  - unfold AgentContext.trace, Context.log, modify. cbn [snd Context.trace].
    by rewrite received_app.
Qed.

(** *** Instances *)

Lemma execution_context_log_reaches_pages_witness :
  let cs := [Context.Call_info (Js.JStr ("a" +:+ line_feed +:+ "b"));
             Context.Call_error (Js.JStr "c")] in
  let w := Context.mkWorld (ExecutionContext.new false) ∅ 0 [] in
  let calls := Context.received 0 (Context.trace
                 (@Context.exec_all sample_platform (cs ++ [Context.Call_end]) w)) in
  let lw := PagingLogger.mkWorld
              (ExecutionContext.new_logger "/work" "job" "record" "id"
                 "2015-01-01" 1) Fs.empty [] in
  0 < 2 ∧
  Forall (λ c, c ≠ Context.Call_end) cs ∧
  (∀ n, Fs.files Fs.empty !!
          PagingLogger.page_file (Fs.join (Fs.join "/work" "_logs") "pages")
                                 "id" n = None) ∧
  ExecutionContext.lines_of
    (Context.received 0 (Context.trace (@Context.exec_all sample_platform cs w)))
    ≠ [] ∧
  ∃ lw' pages,
    ExecutionContext.carry_out 2 (λ _, "{}") calls lw = (Ok tt, lw') ∧
    PagingLogger.page_lines lw' <$> PagingLogger.emitted lw' = Some <$> pages ∧
    mjoin pages = ["1420070400000: a" +:+ line_feed;
                   "1420070400001: b" +:+ line_feed;
                   "[Error] 1420070400002: c" +:+ line_feed].
Proof.
  intros cs w calls lw.
  assert (Forall (λ c, c ≠ Context.Call_end) cs) as Hcs
    by (repeat constructor; discriminate).
  assert (ExecutionContext.lines_of
            (Context.received 0 (Context.trace
               (@Context.exec_all sample_platform cs w))) ≠ []) as Hne
    by (vm_compute; discriminate).
  split; [lia|]. split; [exact Hcs|]. split; [done|]. split; [exact Hne|].
  destruct (@execution_context_log_reaches_pages sample_platform 2 (λ _, "{}")
              false ∅ "/work" "job" "record" "id" "2015-01-01" 1 Fs.empty cs
              ltac:(lia) Hcs ltac:(done) Hne) as (lw' & pages & E & Hp & Hj & _).
  exists lw', pages. split; [exact E|]. split; [exact Hp|].
  rewrite Hj. vm_compute. reflexivity.
Defined.

Lemma verbose_only_job_leaves_no_log_witness :
  let cs := [Context.Call_verbose (Js.JStr "detail"); Context.Call_verbose Js.JNull] in
  let w := Context.mkWorld (ExecutionContext.new false) ∅ 0 [] in
  let lw := PagingLogger.mkWorld
              (ExecutionContext.new_logger "/work" "job" "record" "id"
                 "2015-01-01" 1) Fs.empty [] in
  forallb ExecutionContextSpec.is_verbose_call cs = true ∧
  ExecutionContext.carry_out PAGE_SIZE (λ _, "{}")
    (Context.received 0 (Context.trace
       (@Context.exec_all sample_platform (cs ++ [Context.Call_end]) w))) lw
  = (Ok tt, lw).
Proof.
  intros cs w lw. split; [reflexivity|].
  apply (@verbose_only_job_leaves_no_log sample_platform PAGE_SIZE (λ _, "{}") ∅
           "/work" "job" "record" "id" "2015-01-01" 1 Fs.empty cs eq_refl).
Defined.

Lemma agent_console_is_spared_witness :
  let w := Context.mkWorld (AgentContext.new true) ∅ 0 [] in
  ExecutionContextSpec.below_console (Context.Call_heading "Build") = true ∧
  Context.writers (Context.self w) = Context.writers (AgentContext.new true) ∧
  Context.received 0
    (Context.trace (@Context.exec sample_platform (Context.Call_heading "Build") w).2)
  = [].
Proof.
  intros w. split; [reflexivity|]. split; [reflexivity|].
  apply (@agent_console_is_spared sample_platform true
           (Context.Call_heading "Build") "" w eq_refl eq_refl).
Defined.

(** ** The timeline records of a job and of its tasks *)

Section TimelineFacts.
Import JobContext JobContextSpec JobContextMore.
Context `{Platform}.
Variable feedback : Channel.
Variable this : t.

Lemma registerPendingTask_trace id name w :
  registerPendingTask this id name w =
  mkWorld (reads w)
    (trace w ++ [Feedback (setCurrentOperation id "Initializing");
                 Feedback (setParentId id (jobId (job this)));
                 Feedback (setName id name);
                 Feedback (setState id Pending);
                 Feedback (setType id "Task");
                 Feedback (setWorkerName id (agentName this))]).
Proof.
  unfold registerPendingTask, call, log. cbn [reads trace]. f_equal.
  by rewrite <- !(assoc_L (++)).
Qed.

Lemma setTaskStarted_trace id name w :
  setTaskStarted this id name w =
  mkWorld (S (reads w))
    (trace w ++ [Feedback (setCurrentOperation (jobId (job this))
                                               ("Starting " +:+ name));
                 Feedback (setCurrentOperation id ("Starting " +:+ name));
                 Feedback (setStartTime id (clock (reads w)));
                 Feedback (setState id InProgress)]).
Proof.
  unfold setTaskStarted, call, log, new_Date. cbn [reads trace]. f_equal.
  by rewrite <- !(assoc_L (++)).
Qed.

Lemma setJobInProgress_trace w :
  setJobInProgress this w =
  mkWorld (S (reads w))
    (trace w ++ [Feedback (setCurrentOperation (jobId (job this)) "Starting");
                 Feedback (setName (jobId (job this)) (jobName (job this)));
                 Feedback (setStartTime (jobId (job this)) (clock (reads w)));
                 Feedback (setState (jobId (job this)) InProgress);
                 Feedback (setType (jobId (job this)) "Job");
                 Feedback (setWorkerName (jobId (job this)) (agentName this))]).
Proof.
  unfold setJobInProgress, call, log, new_Date. cbn [reads trace]. f_equal.
  by rewrite <- !(assoc_L (++)).
Qed.

(** The record [id'] after an update of record [id]. *)
Lemma lookup_apply_update tl c id f id' :
  update c = Some (id, f) →
  apply_event tl (Feedback c) !! id' =
  if decide (id = id') then Some (f (default blank (tl !! id))) else tl !! id'.
Proof.
  intros E. unfold apply_event. rewrite E. apply lookup_insert.
Qed.

Lemma lookup_apply_other tl e id' :
  (∀ c id f, e = Feedback c → update c = Some (id, f) → id ≠ id') →
  apply_event tl e !! id' = tl !! id'.
Proof.
  intros He. destruct e as [c| | | |]; try done. cbn.
  destruct (update c) as [[id f]|] eqn:E; [|done].
  apply lookup_insert_ne. by eapply He.
Qed.

(** Events that update no record but [id] leave the others alone. *)
Lemma timeline_frame tr evs id' :
  Forall (λ e, ∀ c id f, e = Feedback c → update c = Some (id, f) → id ≠ id') evs →
  timeline (tr ++ evs) !! id' = timeline tr !! id'.
Proof.
  rewrite timeline_app. generalize (timeline tr). intros tl Hevs. revert tl.
  induction Hevs as [|e evs He _ IH]; intros tl; [done|].
  cbn [foldl]. by rewrite IH, lookup_apply_other.
Qed.

(** The record [id] is read back from the calls alone. *)
Lemma lookup_apply_event tl e id :
  apply_event tl e !! id = record_step id (tl !! id) e.
Proof.
  unfold apply_event, record_step. destruct e as [c| | | |]; try done.
  destruct (update c) as [[id' f]|]; [|done].
  rewrite lookup_insert. by case_decide; subst.
Qed.

Lemma timeline_record tr evs id :
  timeline (tr ++ evs) !! id = foldl (record_step id) (timeline tr !! id) evs.
Proof.
  rewrite timeline_app. generalize (timeline tr). intros tl. revert tl.
  induction evs as [|e evs IH]; intros tl; [done|].
  cbn [foldl]. by rewrite IH, lookup_apply_event.
Qed.

Lemma record_hit id o c f evs :
  update c = Some (id, f) →
  foldl (record_step id) o (Feedback c :: evs) =
  foldl (record_step id) (Some (f (default blank o))) evs.
Proof. intros E. cbn [foldl record_step]. by rewrite E, decide_True. Qed.

Lemma record_miss id id' o c f evs :
  update c = Some (id', f) → id' ≠ id →
  foldl (record_step id) o (Feedback c :: evs) = foldl (record_step id) o evs.
Proof. intros E Hne. cbn [foldl record_step]. by rewrite E, decide_False. Qed.

Lemma record_skip id o e evs :
  match e with Feedback c => update c | _ => None end = None →
  foldl (record_step id) o (e :: evs) = foldl (record_step id) o evs.
Proof.
  intros E. cbn [foldl]. f_equal. unfold record_step.
  destruct e; try done. by rewrite E.
Qed.

(** Reading a record back, one call at a time from the first. *)
Ltac records :=
  rewrite <- ?(assoc_L (++)); cbn [app]; rewrite timeline_record;
  destruct (timeline _ !! _) as [[]|];
  repeat (first
    [ erewrite record_hit by reflexivity
    | erewrite record_miss by first [reflexivity | congruence]
    | rewrite record_skip by reflexivity ];
    cbv beta iota delta [default from_option Datatypes.id blank
                         currentOperation name type startTime finishTime
                         state result parentId workerName]);
  cbn [foldl fmap option_fmap option_map].

(** A task from its registration to its result. *)
Lemma task_records id taskName r w :
  id ≠ jobId (job this) →
  let w1 := registerPendingTask this id taskName w in
  let w2 := setTaskStarted this id taskName w1 in
  let w3 := setTaskResult id taskName r w2 in
  let old := default blank (timeline (trace w) !! jobId (job this)) in
  state <$> timeline (trace w1) !! id = Some (Some Pending) ∧
  state <$> timeline (trace w2) !! id = Some (Some InProgress) ∧
  timeline (trace w3) !! id =
    Some (mkRecord (Some ("Completed " +:+ taskName)) (Some taskName) (Some "Task")
                   (Some (clock (reads w))) (Some (clock (S (reads w))))
                   (Some Completed) (Some r) (Some (jobId (job this)))
                   (Some (agentName this))) ∧
  timeline (trace w3) !! jobId (job this) =
    Some (mkRecord (Some ("Starting " +:+ taskName)) (name old) (type old)
                   (startTime old) (finishTime old) (state old) (result old)
                   (parentId old) (workerName old)).
Proof.
  intros Hid w1 w2 w3 old. subst w3 w2 w1 old.
  rewrite setTaskResult_events, setTaskStarted_trace, registerPendingTask_trace.
  cbn [trace reads]. split_and!; records; done.
Qed.

(** A job from its start to the callback of [finishJob]. *)
Lemma job_records r w :
  let old := default blank (timeline (trace w) !! jobId (job this)) in
  ∃ (uerr : Js.any) (w' : world),
    (∀ cb, finishJob feedback this r cb (setJobInProgress this w) = cb uerr w') ∧
    timeline (trace w') !! jobId (job this) =
      Some (mkRecord (Some ("Completed " +:+ jobName (job this)))
                     (Some (jobName (job this))) (Some "Job")
                     (Some (clock (reads w))) (Some (clock (S (reads w))))
                     (Some Completed) (Some r) (parentId old)
                     (Some (agentName this))).
Proof.
  intros old.
  destruct (finishJob_trace feedback this r (setJobInProgress this w))
    as (uerr & w' & Hcb & Htr).
  exists uerr, w'. split; [exact Hcb|]. subst old. rewrite Htr. clear Hcb Htr.
  unfold completion, final_update.
  destruct (Js.truthy _); rewrite setJobInProgress_trace; cbn [trace reads];
    records; done.
Qed.

(** A result given twice. *)
Lemma second_result id name1 name2 r1 r2 w :
  let w2 := setTaskResult id name2 r2 (setTaskResult id name1 r1 w) in
  let old := default blank (timeline (trace w) !! id) in
  timeline (trace w2) !! id =
    Some (mkRecord (Some ("Completed " +:+ name2)) (name old) (type old)
                   (startTime old) (Some (clock (S (reads w))))
                   (Some Completed) (Some r2) (parentId old) (workerName old)).
Proof.
  intros w2 old. subst w2 old. rewrite !setTaskResult_events.
  cbn [trace reads]. records; done.
Qed.

(** The records a method leaves alone. *)
Lemma other_records id taskName r w id' :
  id' ≠ id → id' ≠ jobId (job this) →
  timeline (trace (registerPendingTask this id taskName w)) !! id' =
    timeline (trace w) !! id' ∧
  timeline (trace (setTaskStarted this id taskName w)) !! id' =
    timeline (trace w) !! id' ∧
  timeline (trace (setTaskResult id taskName r w)) !! id' =
    timeline (trace w) !! id' ∧
  timeline (trace (setJobInProgress this w)) !! id' =
    timeline (trace w) !! id' ∧
  ∃ (uerr : Js.any) (w' : world),
    (∀ cb, finishJob feedback this r cb w = cb uerr w') ∧
    timeline (trace w') !! id' = timeline (trace w) !! id'.
Proof.
  intros Hid Hjob.
  rewrite registerPendingTask_trace, setTaskResult_events,
    setTaskStarted_trace, setJobInProgress_trace. cbn [trace].
  split_and!; [by records|by records|by records|by records|].
  destruct (finishJob_trace feedback this r w) as (uerr & w' & Hcb & Htr).
  exists uerr, w'. split; [exact Hcb|]. rewrite Htr. clear Hcb Htr.
  unfold completion, final_update.
  destruct (Js.truthy _); by records.
Qed.

End TimelineFacts.

(** X15. A task that is registered, started and given a result, with
    an identifier other than the job's: the record reads pending after
    the registration and in progress after the start; after the result
    it holds the completion text, the name, the type, the job as
    parent, the agent as worker, the start and the finish time of the
    two clock reads, and the result; the job's record has changed in
    its current operation only. *)
Theorem task_record_over_its_life `{Platform} (this : JobContext.t)
    (id taskName : string) (r : TaskResult) (w : JobContext.world) :
  id ≠ jobId (JobContext.job this) →
  let w1 := JobContext.registerPendingTask this id taskName w in
  let w2 := JobContext.setTaskStarted this id taskName w1 in
  let w3 := JobContext.setTaskResult id taskName r w2 in
  let old := default JobContext.blank
               (JobContext.timeline (JobContext.trace w)
                  !! jobId (JobContext.job this)) in
  JobContext.state <$> JobContext.timeline (JobContext.trace w1) !! id
    = Some (Some Pending) ∧
  JobContext.state <$> JobContext.timeline (JobContext.trace w2) !! id
    = Some (Some InProgress) ∧
  JobContext.timeline (JobContext.trace w3) !! id =
    Some (JobContext.mkRecord
            (Some ("Completed " +:+ taskName)) (Some taskName) (Some "Task")
            (Some (clock (JobContext.reads w)))
            (Some (clock (S (JobContext.reads w))))
            (Some Completed) (Some r) (Some (jobId (JobContext.job this)))
            (Some (JobContext.agentName this))) ∧
  JobContext.timeline (JobContext.trace w3) !! jobId (JobContext.job this) =
    Some (JobContext.mkRecord
            (Some ("Starting " +:+ taskName)) (JobContext.name old)
            (JobContext.type old) (JobContext.startTime old)
            (JobContext.finishTime old) (JobContext.state old)
            (JobContext.result old) (JobContext.parentId old)
            (JobContext.workerName old)).
Proof. apply task_records. Qed.

(** X16. A job that is set in progress and then finished: the callback
    of [finishJob] is called once, and the job's record then holds the
    completion text, the job's name, the type, the agent as worker, the
    two times and the result that was given, whatever the drain and the
    update of the request answered. *)
Theorem job_record_over_its_life `{Platform} (feedback : JobContext.Channel)
    (this : JobContext.t) (r : TaskResult) (w : JobContext.world) :
  let old := default JobContext.blank
               (JobContext.timeline (JobContext.trace w)
                  !! jobId (JobContext.job this)) in
  ∃ (uerr : Js.any) (w' : JobContext.world),
    (∀ cb, JobContext.finishJob feedback this r cb
             (JobContext.setJobInProgress this w) = cb uerr w') ∧
    JobContext.timeline (JobContext.trace w') !! jobId (JobContext.job this) =
      Some (JobContext.mkRecord
              (Some ("Completed " +:+ jobName (JobContext.job this)))
              (Some (jobName (JobContext.job this))) (Some "Job")
              (Some (clock (JobContext.reads w)))
              (Some (clock (S (JobContext.reads w))))
              (Some Completed) (Some r) (JobContext.parentId old)
              (Some (JobContext.agentName this))).
Proof. apply job_records. Qed.

(** X17. A result given twice to the same record: the second text and
    the second result are the ones that stay, with the finish time of
    the second clock read; the fields [setTaskResult] does not set are
    as they were. *)
Theorem second_result_replaces_the_first `{Platform} (id name1 name2 : string)
    (r1 r2 : TaskResult) (w : JobContext.world) :
  let w2 := JobContext.setTaskResult id name2 r2
              (JobContext.setTaskResult id name1 r1 w) in
  let old := default JobContext.blank
               (JobContext.timeline (JobContext.trace w) !! id) in
  JobContext.timeline (JobContext.trace w2) !! id =
    Some (JobContext.mkRecord
            (Some ("Completed " +:+ name2)) (JobContext.name old)
            (JobContext.type old) (JobContext.startTime old)
            (Some (clock (S (JobContext.reads w))))
            (Some Completed) (Some r2) (JobContext.parentId old)
            (JobContext.workerName old)).
Proof. apply second_result. Qed.

(** X18. The methods of the job context change the record they are
    given and the job's record, and no other: a record with another
    identifier is the same after [registerPendingTask],
    [setTaskStarted], [setTaskResult], [setJobInProgress] and
    [finishJob]. *)
Theorem other_records_are_left_alone `{Platform} (feedback : JobContext.Channel)
    (this : JobContext.t) (id taskName : string) (r : TaskResult)
    (w : JobContext.world) (id' : string) :
  id' ≠ id → id' ≠ jobId (JobContext.job this) →
  JobContext.timeline
      (JobContext.trace (JobContext.registerPendingTask this id taskName w)) !! id'
    = JobContext.timeline (JobContext.trace w) !! id' ∧
  JobContext.timeline
      (JobContext.trace (JobContext.setTaskStarted this id taskName w)) !! id'
    = JobContext.timeline (JobContext.trace w) !! id' ∧
  JobContext.timeline
      (JobContext.trace (JobContext.setTaskResult id taskName r w)) !! id'
    = JobContext.timeline (JobContext.trace w) !! id' ∧
  JobContext.timeline
      (JobContext.trace (JobContext.setJobInProgress this w)) !! id'
    = JobContext.timeline (JobContext.trace w) !! id' ∧
  ∃ (uerr : Js.any) (w' : JobContext.world),
    (∀ cb, JobContext.finishJob feedback this r cb w = cb uerr w') ∧
    JobContext.timeline (JobContext.trace w') !! id'
    = JobContext.timeline (JobContext.trace w) !! id'.
Proof. apply other_records. Qed.

(** A task of the sample job, from its registration to its result. *)
Lemma task_record_over_its_life_witness :
  let this := JobContext.mk (mkJob "job-1" "Build" 7 "token") 1 "agent" in
  let w := JobContext.mkWorld 0 [] in
  "task-1" ≠ jobId (JobContext.job this) ∧
  JobContext.state <$>
    JobContext.timeline
      (JobContext.trace
         (@JobContext.setTaskStarted sample_platform this "task-1" "Compile"
            (JobContext.registerPendingTask this "task-1" "Compile" w)))
      !! "task-1"
  = Some (Some InProgress).
Proof.
  intros this w. split; [done|].
  destruct (@task_record_over_its_life sample_platform this "task-1" "Compile"
              Succeeded w ltac:(done)) as (_ & E & _).
  exact E.
Defined.

(** The record of a second task is left alone by the first. *)
Lemma other_records_are_left_alone_witness :
  let feedback := JobContext.mkChannel
    (λ _, Js.JNull) (λ _, Js.JNull) (λ _, Js.JNull) in
  let this := JobContext.mk (mkJob "job-1" "Build" 7 "token") 1 "agent" in
  let w := JobContext.registerPendingTask this "task-2" "Test"
             (JobContext.mkWorld 0 []) in
  "task-2" ≠ "task-1" ∧ "task-2" ≠ jobId (JobContext.job this) ∧
  JobContext.timeline
      (JobContext.trace
         (@JobContext.setTaskStarted sample_platform this "task-1" "Compile" w))
      !! "task-2"
    = JobContext.timeline (JobContext.trace w) !! "task-2".
Proof.
  intros feedback this w. split; [done|]. split; [done|].
  destruct (@other_records_are_left_alone sample_platform feedback this "task-1"
              "Compile" Succeeded w "task-2" ltac:(done) ltac:(done))
    as (_ & E & _).
  exact E.
Defined.
